(** * The bounded-time incremental poller of [app_integrations/apps/app_base.py]

    A shallow embedding of the [AppIntegration] base class: its lifecycle
    ([_initialize], [gather], [_finalize]), the timed poll cycle ([_gather],
    [do_gather]), the throttle ([_sleep]) and the credential check
    ([_validate_auth]).  The collaborators the class only calls (the concrete
    subclass, the batcher, the configuration object, the host clock) are the
    fields of an environment record.  Calls to [LOGGER] have no effect on
    the state and are left out. *)

From stdpp Require Import gmap strings list.
From Stdlib Require Import ZArith QArith Qpower Qround Qabs Lia Lqa.

Local Open Scope Z_scope.

(** ** Python numbers

    A finite [float] is the rational it denotes; every operation rounds its
    exact result to binary64 (round to nearest, ties to even, gradual
    underflow).  A [Decimal] is a rational too; the default context rounds a
    product to 28 significant digits, ties to even.  Overflow to infinity is
    outside the model: the quantities here are seconds and milliseconds of one
    invocation. *)
Module PyNum.

Definition round_half_even (x : Q) : Z :=
  let f := Qfloor x in
  match Qcompare (x - inject_Z f)%Q (1 # 2)%Q with
  | Lt => f
  | Gt => f + 1
  | Eq => if Z.even f then f else f + 1
  end.

(** [Qlog2_floor a] is the [e] with [2^e <= a < 2^(e+1)], for [0 < a]. *)
Definition Qlog2_floor (a : Q) : Z :=
  let e0 := Z.log2 (Qnum a) - Z.log2 (Zpos (Qden a)) in
  if Qle_bool (2 ^ e0)%Q a then e0 else e0 - 1.

Fixpoint digits10_aux (fuel : nat) (n : Z) : Z :=
  match fuel with
  | O => 0
  | S f => if n <? 10 then 1 else 1 + digits10_aux f (n / 10)
  end.

Definition digits10 (n : Z) : Z := digits10_aux (S (Z.to_nat (Z.log2 n))) n.

(** [Qlog10_floor a] is the [e] with [10^e <= a < 10^(e+1)], for [0 < a]. *)
Definition Qlog10_floor (a : Q) : Z :=
  let e0 := digits10 (Qnum a) - digits10 (Zpos (Qden a)) in
  if Qle_bool (10 ^ e0)%Q a then e0 else e0 - 1.

(** Rounding of an exact value to the nearest binary64 number. *)
Definition b64 (x : Q) : Q :=
  if Qeq_bool x 0 then 0%Q
  else
    let e := Qlog2_floor (Qabs x) in
    let u := Z.max (e - 52) (-1074) in
    Qred (inject_Z (round_half_even (x / 2 ^ u)%Q) * 2 ^ u)%Q.

(** Rounding of an exact value to 28 significant decimal digits. *)
Definition dec28 (x : Q) : Q :=
  if Qeq_bool x 0 then 0%Q
  else
    let e := Qlog10_floor (Qabs x) in
    let u := e - 27 in
    Qred (inject_Z (round_half_even (x / 10 ^ u)%Q) * 10 ^ u)%Q.

Definition float := Q.
Definition decimal := Q.

(** A float literal such as [1.2] or [1000.0]. *)
Definition float_lit (q : Q) : float := b64 q.
(** [float(n)] for an [int], as done implicitly by [float + int]. *)
Definition float_of_int (n : Z) : float := b64 (inject_Z n).
(** [Decimal(x)] for a float [x]: the conversion is exact. *)
Definition Decimal (x : float) : decimal := x.
(** [a * b] on [Decimal]s. *)
Definition decimal_mul (a b : decimal) : decimal := dec28 (a * b)%Q.
(** [float(d)] for a [Decimal] [d]. *)
Definition float_of_decimal (d : decimal) : float := b64 d.
Definition float_add (a b : float) : float := b64 (a + b)%Q.
Definition float_div (a b : float) : float := b64 (a / b)%Q.
Definition float_ltb (a b : float) : bool := negb (Qle_bool b a).

End PyNum.

(** ** Exceptions and results *)

(** An exception carries its constructor arguments, as [e.args] does. *)
Inductive exn :=
| AppIntegrationConfigError (args : list string)
| AppIntegrationException (args : list string)
| KeyError (key : string)
| OtherError (args : list string).

(** What a call does: return a value, raise, or (for the loop only) use up
    the iteration bound of the model. *)
Inductive result (A : Type) :=
| Returned (a : A)
| Raised (e : exn)
| OutOfFuel.
Arguments Returned {A} a.
Arguments Raised {A} e.
Arguments OutOfFuel {A}.

(** ** The configuration object *)

Inductive cfg_value :=
| CStr (s : string)
| CDict (d : gmap string string).

(** Run status kept in the store. *)
Inductive run_state := Idle | Running | Succeeded | Failed.

Global Instance run_state_eq_dec : EqDecision run_state.
Proof. solve_decision. Defined.

(** Modelled from the spec: the class [AppConfig] (module
    [app_integrations.config]) is not part of the sources.  It is a [dict]
    (the items) backed by the store, which holds per job the run status, the
    resumption watermark and the watermark observed when the run started;
    [mark_running] / [mark_success] write the status, assigning
    [last_timestamp] writes the watermark. *)
Record AppConfig := {
  cfg_items : gmap string cfg_value;
  current_state : run_state;
  last_timestamp : Z;
  start_last_timestamp : Z;
}.

Definition is_running (c : AppConfig) : bool :=
  bool_decide (current_state c = Running).

Definition with_current_state (s : run_state) (c : AppConfig) : AppConfig :=
  {| cfg_items := cfg_items c; current_state := s;
     last_timestamp := last_timestamp c;
     start_last_timestamp := start_last_timestamp c |}.

Definition with_last_timestamp (ts : Z) (c : AppConfig) : AppConfig :=
  {| cfg_items := cfg_items c; current_state := current_state c;
     last_timestamp := ts;
     start_last_timestamp := start_last_timestamp c |}.

(** [set(v)] for a configuration value: the keys of a dict, the characters of
    a string. *)
Fixpoint chars (s : string) : gset string :=
  match s with
  | EmptyString => ∅
  | String c s' => {[ String c EmptyString ]} ∪ chars s'
  end.

Definition py_set (v : cfg_value) : gset string :=
  match v with
  | CStr s => chars s
  | CDict d => dom d
  end.

(** ** The instance *)

Record Log := { log_time : Z; log_body : string }.

(** The attributes [__init__] creates; [_batcher] has no state of its own and
    lives in the environment. *)
Record AppIntegration := {
  _config : AppConfig;
  _gathered_log_count : Z;
  _more_to_poll : bool;
  _poll_count : Z;
  _last_timestamp : Z;
}.

Definition __init__ (config : AppConfig) : AppIntegration :=
  {| _config := config;
     _gathered_log_count := 0;
     _more_to_poll := false;
     _poll_count := 0;
     _last_timestamp := 0 |}.

Definition with_config (c : AppConfig) (a : AppIntegration) : AppIntegration :=
  {| _config := c; _gathered_log_count := _gathered_log_count a;
     _more_to_poll := _more_to_poll a; _poll_count := _poll_count a;
     _last_timestamp := _last_timestamp a |}.

Definition with_gathered_log_count (n : Z) (a : AppIntegration) : AppIntegration :=
  {| _config := _config a; _gathered_log_count := n;
     _more_to_poll := _more_to_poll a; _poll_count := _poll_count a;
     _last_timestamp := _last_timestamp a |}.

Definition with_more_to_poll (b : bool) (a : AppIntegration) : AppIntegration :=
  {| _config := _config a; _gathered_log_count := _gathered_log_count a;
     _more_to_poll := b; _poll_count := _poll_count a;
     _last_timestamp := _last_timestamp a |}.

Definition with_poll_count (n : Z) (a : AppIntegration) : AppIntegration :=
  {| _config := _config a; _gathered_log_count := _gathered_log_count a;
     _more_to_poll := _more_to_poll a; _poll_count := n;
     _last_timestamp := _last_timestamp a |}.

Definition with_last_ts (ts : Z) (a : AppIntegration) : AppIntegration :=
  {| _config := _config a; _gathered_log_count := _gathered_log_count a;
     _more_to_poll := _more_to_poll a; _poll_count := _poll_count a;
     _last_timestamp := ts |}.

(** ** The collaborators *)

(** What the subclass's [_gather_logs] does on one call: it returns the logs
    (a falsy result, [False] or an empty list, is [[]]) and leaves
    [_last_timestamp] and [_more_to_poll] at the given values, or it raises. *)
Inductive fetch_outcome :=
| Fetched (logs : list Log) (last_ts : Z) (more : bool)
| FetchRaised (e : exn).

(** What [Batcher.send_logs] does on one call: it returns (the value is the
    delivery indicator) or it raises. *)
Inductive send_outcome :=
| SendReturned (ok : bool)
| SendRaised (e : exn).

(** The abstract members of the class and the services it calls.  The
    natural-number argument is the index of the loop iteration in which the
    call is made: the outside world may answer differently each time. *)
Record Env := {
  service : string;
  _type : string;
  required_auth_keys : gmap string string;
  _sleep_seconds : AppIntegration -> N;
  _gather_logs : nat -> AppIntegration -> fetch_outcome;
  send_logs : nat -> cfg_value -> list Log -> send_outcome;
  (** seconds that [timeit] measures around the call of [do_gather] *)
  elapsed : nat -> Q;
  (** milliseconds left, as [remaining_ms()] reports them *)
  remaining_ms : nat -> Z;
}.

(** The externally visible actions of a run, in the order they happen. *)
Inductive event :=
| EvMarkRunning
| EvMarkSuccess
| EvSleep (secs : N)
| EvFetch (i : nat)
| EvSend (dest : cfg_value) (logs : list Log)
| EvSetLastTimestamp (ts : Z)
| EvRemaining (ms : Z).

Global Instance event_inhabited : Inhabited event := populate EvMarkRunning.

(** ** State and control *)

Record state := { self : AppIntegration; trace : list event }.

Definition M (A : Type) : Type := state -> result A * state.

Definition ret {A} (a : A) : M A := fun st => (Returned a, st).

Definition raise {A} (e : exn) : M A := fun st => (Raised e, st).

Definition out_of_fuel {A} : M A := fun st => (OutOfFuel, st).

Definition bind {A B} (m : M A) (k : A -> M B) : M B := fun st =>
  match m st with
  | (Returned a, st') => k a st'
  | (Raised e, st') => (Raised e, st')
  | (OutOfFuel, st') => (OutOfFuel, st')
  end.

Notation "'do' x <- m ; k" := (bind m (fun x => k))
  (at level 10, x name, m at level 100, k at level 200).

Definition get_self : M AppIntegration := fun st => (Returned (self st), st).

Definition modify (f : AppIntegration -> AppIntegration) : M unit := fun st =>
  (Returned tt, {| self := f (self st); trace := trace st |}).

Definition emit (e : event) : M unit := fun st =>
  (Returned tt, {| self := self st; trace := trace st ++ [e] |}).

(** [self._config.mark_running()] *)
Definition mark_running : M unit :=
  do _ <- modify (fun a => with_config (with_current_state Running (_config a)) a);
  emit EvMarkRunning.

(** [self._config.mark_success()] *)
Definition mark_success : M unit :=
  do _ <- modify (fun a => with_config (with_current_state Succeeded (_config a)) a);
  emit EvMarkSuccess.

(** [self._config.last_timestamp = ts] *)
Definition set_config_last_timestamp (ts : Z) : M unit :=
  do _ <- modify (fun a => with_config (with_last_timestamp ts (_config a)) a);
  emit (EvSetLastTimestamp ts).

(** [time.sleep(secs)] *)
Definition time_sleep (secs : N) : M unit := emit (EvSleep secs).

(** ** The methods of [AppIntegration] *)

Section Methods.

Variable env : Env.

(** [type()]: ['_'.join([cls.service(), cls._type()])] *)
Definition type : string := service env +:+ "_" +:+ _type env.

(** ['\'{}\''.format(key)] *)
Definition quoted (key : string) : string := "'" +:+ key +:+ "'".

(** The message of the error raised for the keys [keys], in the order in
    which the difference set is iterated. *)
Definition missing_keys_message (keys : list string) : string :=
  "Auth config for service '" +:+ type +:+
  "' is missing the following required keys: " +:+
  String.concat ", " (map quoted keys).

Definition _validate_auth : M unit :=
  do app <- get_self;
  let config := _config app in
  if Nat.eqb (size (cfg_items config)) 0 then
    raise (AppIntegrationConfigError ["Config for service '{}' is empty"; type])
  else
    match cfg_items config !! "auth" with
    | None =>
        raise (AppIntegrationConfigError
                 ["Auth config for service '{}' is empty"; type])
    | Some auth =>
        let required_keys := dom (required_auth_keys env) in
        let auth_key_diff := required_keys ∖ py_set auth in
        if bool_decide (auth_key_diff = ∅) then ret tt
        else
          raise (AppIntegrationConfigError
                   [missing_keys_message (elements auth_key_diff)])
    end.

Definition _sleep : M unit :=
  do app <- get_self;
  if _poll_count app =? 0 then ret tt
  else
    let sleep_for_secs := _sleep_seconds env app in
    time_sleep sleep_for_secs.

Definition _initialize : M bool :=
  do app <- get_self;
  if is_running (_config app) then ret false
  else
    do _ <- _validate_auth;
    do _ <- modify (fun a => with_last_ts (last_timestamp (_config a)) a);
    do _ <- mark_running;
    ret true.

(** The comparison of [_last_timestamp] with [start_last_timestamp] in the
    source only selects a log message. *)
Definition _finalize : M unit :=
  do _ <- mark_success;
  do app <- get_self;
  set_config_last_timestamp (_last_timestamp app).

(** The call [self._gather_logs()] in iteration [i]. *)
Definition call_gather_logs (i : nat) : M (list Log) :=
  do app <- get_self;
  do _ <- emit (EvFetch i);
  match _gather_logs env i app with
  | Fetched logs ts more =>
      do _ <- modify (fun a => with_more_to_poll more (with_last_ts ts a));
      ret logs
  | FetchRaised e => raise e
  end.

(** [self._config[key]] *)
Definition config_item (key : string) : M cfg_value :=
  do app <- get_self;
  match cfg_items (_config app) !! key with
  | Some v => ret v
  | None => raise (KeyError key)
  end.

(** The call [self._batcher.send_logs(dest, logs)] in iteration [i]. *)
Definition call_send_logs (i : nat) (dest : cfg_value) (logs : list Log) : M unit :=
  do _ <- emit (EvSend dest logs);
  match send_logs env i dest logs with
  | SendReturned _ => ret tt
  | SendRaised e => raise e
  end.

(** The function [do_gather] nested in [_gather], in iteration [i]. *)
Definition do_gather (i : nat) : M unit :=
  do logs <- call_gather_logs i;
  match logs with
  | [] => ret tt
  | _ :: _ =>
      do _ <- modify (fun a =>
                with_gathered_log_count
                  (_gathered_log_count a + Z.of_nat (length logs)) a);
      do dest <- config_item "function_name";
      do _ <- call_send_logs i dest logs;
      do app <- get_self;
      do _ <- set_config_last_timestamp (_last_timestamp app);
      modify (fun a => with_poll_count (_poll_count a + 1) a)
  end.

(** [timeit(f, number=1)] in iteration [i]: runs [f] once and returns the
    seconds it took, as a float. *)
Definition timeit (i : nat) (f : M unit) : M PyNum.float :=
  do _ <- f;
  ret (PyNum.float_lit (elapsed env i)).

Definition _POLL_BUFFER_MULTIPLIER : PyNum.float := PyNum.float_lit (12 # 10).

(** The value [_gather] returns for the measured time [t]:
    [float(Decimal(t) * Decimal(self._POLL_BUFFER_MULTIPLIER))]. *)
Definition buffered (t : PyNum.float) : PyNum.float :=
  let exec_time := PyNum.Decimal t in
  PyNum.float_of_decimal
    (PyNum.decimal_mul exec_time (PyNum.Decimal _POLL_BUFFER_MULTIPLIER)).

Definition _gather (i : nat) : M PyNum.float :=
  do _ <- _sleep;
  do t <- timeit i (do_gather i);
  ret (buffered t).

(** The left-hand side of the loop condition:
    [self._gather() + self._sleep_seconds()]. *)
Definition projected_cost (gathered : PyNum.float) (sleep_secs : N) : PyNum.float :=
  PyNum.float_add gathered (PyNum.float_of_int (Z.of_N sleep_secs)).

(** The loop condition, once its three calls have returned:
    [cost < remaining_ms / 1000.0]. *)
Definition admits (cost : PyNum.float) (ms : Z) : bool :=
  PyNum.float_ltb cost
    (PyNum.float_div (PyNum.float_of_int ms) (PyNum.float_lit 1000)).

(** [self._config.remaining_ms()] in iteration [i]. *)
Definition call_remaining_ms (i : nat) : M Z :=
  do _ <- emit (EvRemaining (remaining_ms env i));
  ret (remaining_ms env i).

(** The [while] loop of [gather], from iteration [i] on; [fuel] bounds the
    number of iterations the model follows. *)
Fixpoint gather_loop (fuel : nat) (i : nat) : M unit :=
  match fuel with
  | O => out_of_fuel
  | S fuel' =>
      do g <- _gather i;
      do app <- get_self;
      let secs := _sleep_seconds env app in
      do ms <- call_remaining_ms i;
      if admits (projected_cost g secs) ms then
        do app <- get_self;
        if negb (_more_to_poll app) then ret tt
        else
          do _ <- modify (fun a => with_more_to_poll (negb (_more_to_poll a)) a);
          gather_loop fuel' (S i)
      else ret tt
  end.

Definition gather (fuel : nat) : M unit :=
  do started <- _initialize;
  if negb started then ret tt
  else
    do _ <- gather_loop fuel 0;
    _finalize.

End Methods.

(** * Vocabulary of the statements *)

(** [mentions msg part]: [part] occurs in [msg]. *)
Definition mentions (msg part : string) : Prop :=
  ∃ pre post, msg = pre +:+ part +:+ post.

(** Relative error of one rounding to binary64, [2^-53], and of one rounding
    to 28 decimal digits, [10^-27 / 2]. *)
Definition eps64 : Q := 1 # 9007199254740992.
Definition eps_dec : Q := 1 # 2000000000000000000000000000.

(** The relative error allowed to the whole estimate, [2^-50]. *)
Definition eps_cost : Q := 1 # 1125899906842624.

(** A delivery has failed when the call raised or returned a false
    indicator. *)
Definition send_failed (o : send_outcome) : bool :=
  match o with
  | SendReturned ok => negb ok
  | SendRaised _ => true
  end.

(** The events a poll cycle of iteration [i] may add. *)
Definition is_cycle_event (i : nat) (e : event) : Prop :=
  match e with
  | EvSleep _ | EvSend _ _ | EvSetLastTimestamp _ => True
  | EvFetch j => j = i
  | EvMarkRunning | EvMarkSuccess | EvRemaining _ => False
  end.

(** The events the loop may add: all but the two status writes. *)
Definition is_loop_event (e : event) : Prop :=
  match e with
  | EvMarkRunning | EvMarkSuccess => False
  | _ => True
  end.

(** The state [_initialize] leaves when it starts the run. *)
Definition started (st : state) : state :=
  {| self :=
       with_config (with_current_state Running (_config (self st)))
         (with_last_ts (last_timestamp (_config (self st))) (self st));
     trace := trace st ++ [EvMarkRunning] |}.

(** The state [_finalize] leaves. *)
Definition finalized (st : state) : state :=
  {| self :=
       with_config
         (with_last_timestamp (_last_timestamp (self st))
            (with_current_state Succeeded (_config (self st))))
         (self st);
     trace :=
       trace st ++ [EvMarkSuccess; EvSetLastTimestamp (_last_timestamp (self st))] |}.

Section Vocabulary.

Variable env : Env.

(** The events [_sleep] adds for the instance [app]. *)
Definition sleep_events (app : AppIntegration) : list event :=
  if _poll_count app =? 0 then [] else [EvSleep (_sleep_seconds env app)].

(** The value a completed cycle of iteration [i] hands to the loop. *)
Definition cycle_cost (i : nat) : PyNum.float :=
  buffered (PyNum.float_lit (elapsed env i)).

(** Normal form of one cycle: its result, the instance it leaves and the
    events it adds after those of [_sleep]. *)
Definition cycle_outcome (i : nat) (app : AppIntegration)
  : result PyNum.float * AppIntegration * list event :=
  match _gather_logs env i app with
  | FetchRaised e => (Raised e, app, [EvFetch i])
  | Fetched [] ts more =>
      (Returned (cycle_cost i), with_more_to_poll more (with_last_ts ts app),
       [EvFetch i])
  | Fetched (l :: ls) ts more =>
      let app1 :=
        with_gathered_log_count
          (_gathered_log_count app + Z.of_nat (length (l :: ls)))
          (with_more_to_poll more (with_last_ts ts app)) in
      match cfg_items (_config app) !! "function_name" with
      | None => (Raised (KeyError "function_name"), app1, [EvFetch i])
      | Some dest =>
          match send_logs env i dest (l :: ls) with
          | SendRaised e => (Raised e, app1, [EvFetch i; EvSend dest (l :: ls)])
          | SendReturned _ =>
              (Returned (cycle_cost i),
               with_poll_count (_poll_count app + 1)
                 (with_config (with_last_timestamp ts (_config app)) app1),
               [EvFetch i; EvSend dest (l :: ls); EvSetLastTimestamp ts])
          end
      end
  end.

(** The flag [_more_to_poll] as a call of [_gather_logs] leaves it; a call
    that raises leaves it as it was. *)
Definition flag_after (i : nat) (app : AppIntegration) : bool :=
  match _gather_logs env i app with
  | Fetched _ _ more => more
  | FetchRaised _ => _more_to_poll app
  end.

(** Iteration [k] is the last one whatever the instance looks like: either
    the projected cost does not fit the remaining time, or the fetch leaves
    the continuation flag unset. *)
Definition stops_at (k : nat) : Prop :=
  (∀ app, admits (projected_cost (cycle_cost k) (_sleep_seconds env app))
                 (remaining_ms env k) = false)
  ∨ (∀ app, flag_after k app = false).

(** Modelled from the spec: the subclasses that implement [_gather_logs] are
    not part of the sources.  A cycle advances the in-memory watermark to the
    maximum timestamp implied by the new records: a fetch never moves
    [_last_timestamp] backwards, and a fetch without records leaves it where
    it was. *)
Definition adapter_advances : Prop :=
  ∀ i app,
    match _gather_logs env i app with
    | Fetched logs ts _ =>
        _last_timestamp app <= ts ∧ (logs = [] → ts = _last_timestamp app)
    | FetchRaised _ => True
    end.

End Vocabulary.

(** Modelled from the spec: the watermark after a fetch, the maximum of the
    previous watermark and the timestamps of the new records. *)
Definition advance_watermark (since : Z) (records : list Log) : Z :=
  foldr Z.max since (map log_time records).

(** Modelled from the spec: a subclass's [_gather_logs] built on the source
    interface [fetchNext(credentials, sinceWatermark) -> (records,
    moreAvailable)]. *)
Definition spec_gather_logs (fetchNext : nat -> Z -> list Log * bool)
  (i : nat) (app : AppIntegration) : fetch_outcome :=
  let '(records, more) := fetchNext i (_last_timestamp app) in
  Fetched records (advance_watermark (_last_timestamp app) records) more.

(** * Concrete jobs and collaborators

    The inputs at which the general statements are instantiated. *)
Module Examples.

Definition full_auth : gmap string string :=
  <["api_key" := "0123"]> {["subdomain" := "acme"]}.

Definition partial_auth : gmap string string := {["api_key" := "0123"]}.

Definition extra_auth : gmap string string :=
  <["extra" := "unused"]> full_auth.

Definition config_with (auth : gmap string string) (s : run_state) : AppConfig :=
  {| cfg_items :=
       <["auth" := CDict auth]>
         (<["function_name" := CStr "rule_processor"]>
            {["type" := CStr "zendesk_audit"]});
     current_state := s;
     last_timestamp := 100;
     start_last_timestamp := 100 |}.

Definition fresh (c : AppConfig) : state :=
  {| self := __init__ c; trace := [] |}.

Definition log1 : Log := {| log_time := 150; log_body := "first" |}.
Definition log2 : Log := {| log_time := 160; log_body := "second" |}.
Definition log3 : Log := {| log_time := 170; log_body := "third" |}.

(** A well-behaved job: one page of three records, delivered. *)
Definition env_ok : Env :=
  {| service := "zendesk";
     _type := "audit";
     required_auth_keys :=
       <["api_key" := "API key"]> {["subdomain" := "account subdomain"]};
     _sleep_seconds := fun _ => 5%N;
     _gather_logs := fun _ _ => Fetched [log1; log2; log3] 170 false;
     send_logs := fun _ _ _ => SendReturned true;
     elapsed := fun _ => (1 # 100)%Q;
     remaining_ms := fun _ => 5000 |}.

Definition with_fetch (f : nat -> AppIntegration -> fetch_outcome) (e : Env) : Env :=
  {| service := service e; _type := _type e;
     required_auth_keys := required_auth_keys e;
     _sleep_seconds := _sleep_seconds e;
     _gather_logs := f;
     send_logs := send_logs e;
     elapsed := elapsed e;
     remaining_ms := remaining_ms e |}.

Definition with_send (s : nat -> cfg_value -> list Log -> send_outcome) (e : Env) : Env :=
  {| service := service e; _type := _type e;
     required_auth_keys := required_auth_keys e;
     _sleep_seconds := _sleep_seconds e;
     _gather_logs := _gather_logs e;
     send_logs := s;
     elapsed := elapsed e;
     remaining_ms := remaining_ms e |}.

Definition with_remaining (r : nat -> Z) (e : Env) : Env :=
  {| service := service e; _type := _type e;
     required_auth_keys := required_auth_keys e;
     _sleep_seconds := _sleep_seconds e;
     _gather_logs := _gather_logs e;
     send_logs := send_logs e;
     elapsed := elapsed e;
     remaining_ms := r |}.

(** The sink reports a failed delivery through its return value. *)
Definition env_send_false : Env :=
  with_send (fun _ _ _ => SendReturned false) env_ok.

(** The sink raises. *)
Definition env_send_raises : Env :=
  with_send (fun _ _ _ => SendRaised (OtherError ["ClientError"])) env_ok.

(** The first fetch raises. *)
Definition env_fetch_raises : Env :=
  with_fetch (fun _ _ => FetchRaised (OtherError ["ConnectionError"])) env_ok.

(** The first page is empty but more data is announced; the second page
    holds one record. *)
Definition env_empty_then_more : Env :=
  with_remaining (fun _ => 60000)
    (with_fetch
       (fun i app =>
          match i with
          | O => Fetched [] (_last_timestamp app) true
          | S _ => Fetched [log1] 150 false
          end) env_ok).

(** Two pages, each announcing more data, with ample time left. *)
Definition env_two_pages : Env :=
  with_remaining (fun _ => 60000)
    (with_fetch
       (fun i app =>
          match i with
          | O => Fetched [log1] 150 true
          | S _ => Fetched [log2] 160 false
          end) env_ok).

(** A source behind the interface of the spec. *)
Definition env_spec_source : Env :=
  with_remaining (fun _ => 60000)
    (with_fetch
       (spec_gather_logs
          (fun i since =>
             match i with
             | O => ([log1; log2], true)
             | S _ => ([], false)
             end)) env_ok).

(** Every page announces more data; five seconds are left. *)
Definition env_always_more : Env :=
  with_fetch (fun _ _ => Fetched [log1] 150 true) env_ok.

(** No time is left when the run starts. *)
Definition env_no_time : Env := with_remaining (fun _ => -250) env_ok.

End Examples.

(** * Tactics *)

(** Membership in an explicit list of events: [event_in] proves it,
    [event_not_in H] refutes the hypothesis [H]. *)
Ltac event_in :=
  repeat first [apply list_elem_of_here | apply list_elem_of_further].

Ltac event_not_in H :=
  repeat (apply elem_of_cons in H as [H | H]; [discriminate H |]);
  by apply elem_of_nil in H.


(** * The rest of [app_base.py] and the helpers of [helpers/base.py] *)

(** ** Python values

    The values a parsed JSON document is made of, with the three operations
    the code applies to them: subscription [x[k]], membership [s in x] for a
    string [s], and iteration [for e in x]. *)
Module Py.

Local Unset Elimination Schemes.
Inductive value :=
| VNone
| VBool (b : bool)
| VInt (z : Z)
| VStr (s : string)
| VList (l : list value)
| VDict (d : gmap string value).
Local Set Elimination Schemes.

Inductive error :=
| KeyError (key : value)
| TypeError
| IndexError
| ValueError.

Inductive outcome (A : Type) :=
| Ok (a : A)
| Err (e : error).
Arguments Ok {A} a.
Arguments Err {A} e.

(** The position an index denotes in a sequence of length [len]; negative
    indices count from the end. *)
Definition position (len : nat) (i : Z) : option nat :=
  if (0 <=? i) && (i <? Z.of_nat len) then Some (Z.to_nat i)
  else if (- Z.of_nat len <=? i) && (i <? 0) then Some (Z.to_nat (Z.of_nat len + i))
  else None.

Definition list_item (l : list value) (i : Z) : outcome value :=
  match position (length l) i with
  | Some n =>
      match l !! n with
      | Some v => Ok v
      | None => Err IndexError
      end
  | None => Err IndexError
  end.

Definition str_item (s : string) (i : Z) : outcome value :=
  match position (String.length s) i with
  | Some n =>
      match String.get n s with
      | Some c => Ok (VStr (String c EmptyString))
      | None => Err IndexError
      end
  | None => Err IndexError
  end.

(** [x[k]] *)
Definition subscript (x k : value) : outcome value :=
  match x with
  | VDict d =>
      match k with
      | VStr s =>
          match d !! s with
          | Some v => Ok v
          | None => Err (KeyError k)
          end
      | VNone | VBool _ | VInt _ => Err (KeyError k)
      | VList _ | VDict _ => Err TypeError
      end
  | VList l =>
      match k with
      | VInt i => list_item l i
      | VBool b => list_item l (if b then 1 else 0)
      | _ => Err TypeError
      end
  | VStr s =>
      match k with
      | VInt i => str_item s i
      | VBool b => str_item s (if b then 1 else 0)
      | _ => Err TypeError
      end
  | VNone | VBool _ | VInt _ => Err TypeError
  end.

Definition is_str (s : string) (v : value) : bool :=
  match v with
  | VStr s' => bool_decide (s = s')
  | _ => false
  end.

(** [s in x] for a string [s] *)
Definition contains (s : string) (x : value) : outcome bool :=
  match x with
  | VDict d => Ok (bool_decide (is_Some (d !! s)))
  | VList l => Ok (existsb (is_str s) l)
  | VStr s' =>
      Ok (match String.index 0 s s' with Some _ => true | None => false end)
  | VNone | VBool _ | VInt _ => Err TypeError
  end.

Fixpoint characters (s : string) : list value :=
  match s with
  | EmptyString => []
  | String c s' => VStr (String c EmptyString) :: characters s'
  end.

(** The elements [for e in x] goes through: the items of a list, the keys of
    a dict, the characters of a string. *)
Definition iterate (x : value) : outcome (list value) :=
  match x with
  | VList l => Ok l
  | VDict d => Ok (map (λ kv, VStr kv.1) (map_to_list d))
  | VStr s => Ok (characters s)
  | VNone | VBool _ | VInt _ => Err TypeError
  end.

(** [int(x)] for a float [x]: truncation towards zero. *)
Definition int_of_float (x : PyNum.float) : Z :=
  if Qle_bool 0 x then Qfloor x else Qceiling x.

End Py.

(** ** [AppIntegration._check_http_response] *)

(** What the method reads of a response: its status code and what [json()]
    gives, the parsed body or the error it raises. *)
Record Response := {
  status_code : Z;
  json : Py.outcome Py.value;
}.

(** [response] is [None] or a response.  The body is only looked at to log
    the failure: [response.json()['message']]. *)
Definition _check_http_response (response : option Response) : Py.outcome bool :=
  match response with
  | None => Py.Ok false
  | Some r =>
      let success := (200 <=? status_code r) && (status_code r <=? 299) in
      if negb success then
        match json r with
        | Py.Ok body =>
            match Py.subscript body (Py.VStr "message") with
            | Py.Ok _ => Py.Ok success
            | Py.Err e => Py.Err e
            end
        | Py.Err e => Py.Err e
        end
      else Py.Ok success
  end.

(** ** The registry: [STREAMALERT_APPS], [app], [get_app] *)
Module Registry.

(** A registered class: the two names [type()] joins, and what calling the
    class on a configuration does, which is to return the new instance or to
    raise. *)
Record AppClass := {
  cls_service : string;
  cls_type : string;
  cls_new : AppConfig -> result AppIntegration;
}.

(** [cls.type()] *)
Definition class_type (cls : AppClass) : string :=
  cls_service cls +:+ "_" +:+ cls_type cls.

(** [app(cls)]: [STREAMALERT_APPS[cls.type()] = cls] *)
Definition app (cls : AppClass) (apps : gmap string AppClass) : gmap string AppClass :=
  <[class_type cls := cls]> apps.

(** The body of the [try]: [STREAMALERT_APPS[config['type']](config)].  A
    dict is not hashable and cannot be used as a key. *)
Definition lookup_and_call (apps : gmap string AppClass) (config : AppConfig)
  : result (AppClass * AppIntegration) :=
  match cfg_items config !! "type" with
  | None => Raised (KeyError "type")
  | Some (CDict _) => Raised (OtherError ["TypeError"; "unhashable type: 'dict'"])
  | Some (CStr t) =>
      match apps !! t with
      | None => Raised (KeyError t)
      | Some cls =>
          match cls_new cls config with
          | Returned a => Returned (cls, a)
          | Raised e => Raised e
          | OutOfFuel => OutOfFuel
          end
      end
  end.

(** ['{}'.format(v)] for a string [v]; a dict never gets here. *)
Definition format_value (v : cfg_value) : string :=
  match v with
  | CStr s => s
  | CDict _ => ""
  end.

Definition get_app (apps : gmap string AppClass) (config : AppConfig)
  : result (AppClass * AppIntegration) :=
  match lookup_and_call apps config with
  | Raised (KeyError _) =>
      match cfg_items config !! "type" with
      | None =>
          Raised (AppIntegrationException
                    ["The 'type' is not defined in the config."])
      | Some v =>
          Raised (AppIntegrationException
                    ["App integration does not exist for type: " +:+ format_value v])
      end
  | r => r
  end.

End Registry.

(** ** [helpers/base.py] *)
Module Helpers.

(** [last_hour(unixtime, hours)], with [now] the value of [time.time()].
    [unixtime] is an [int], or [None] when the column is missing. *)
Definition last_hour (now : PyNum.float) (unixtime : option Z) (hours : Z) : bool :=
  let seconds := hours * 3600 in
  match unixtime with
  | Some t => if t =? 0 then false else Py.int_of_float now - t <=? seconds
  | None => false
  end.

Section InNetwork.

(** The two operations of [netaddr] the function uses: the constructor
    [IPNetwork], which raises [AddrFormatError] ([None]) on a string it
    cannot read, and the membership test [ip_address in network]. *)
Context {address network : Type}.
Variable IPNetwork : string -> option network.
Variable member : address -> network -> bool.

Fixpoint in_network (ip_address : address) (cidrs : list string) : bool :=
  match cidrs with
  | [] => false
  | cidr :: rest =>
      match IPNetwork cidr with
      | None => in_network ip_address rest
      | Some network =>
          if member ip_address network then true
          else in_network ip_address rest
      end
  end.

End InNetwork.

(** The inner loop: [result = result[original_key]] for each key. *)
Fixpoint follow (result : Py.value) (original_keys : list Py.value)
  : Py.outcome Py.value :=
  match original_keys with
  | [] => Py.Ok result
  | original_key :: rest =>
      match Py.subscript result original_key with
      | Py.Ok r => follow r rest
      | Py.Err e => Py.Err e
      end
  end.

(** One pass of the outer loop: the value appended for [original_keys]. *)
Definition resolve (rec original_keys : Py.value) : Py.outcome Py.value :=
  match original_keys with
  | Py.VList keys => follow rec keys
  | _ => Py.Ok rec
  end.

(** The outer loop, appending to [results]. *)
Fixpoint collect (rec : Py.value) (entries : list Py.value) (results : list Py.value)
  : Py.outcome (list Py.value) :=
  match entries with
  | [] => Py.Ok results
  | original_keys :: rest =>
      match resolve rec original_keys with
      | Py.Ok result => collect rec rest (results ++ [result])
      | Py.Err e => Py.Err e
      end
  end.

Definition fetch_values_by_datatype (rec : Py.value) (datatype : string)
  : Py.outcome (list Py.value) :=
  let results := [] in
  match Py.subscript rec (Py.VStr "normalized_types") with
  | Py.Err e => Py.Err e
  | Py.Ok types =>
      match Py.contains datatype types with
      | Py.Err e => Py.Err e
      | Py.Ok false => Py.Ok results
      | Py.Ok true =>
          match Py.subscript types (Py.VStr datatype) with
          | Py.Err e => Py.Err e
          | Py.Ok paths =>
              match Py.iterate paths with
              | Py.Err e => Py.Err e
              | Py.Ok entries => collect rec entries results
              end
          end
      end
  end.

End Helpers.

(** The value that holds [v] under the keys [keys], one dict inside the
    other. *)
Fixpoint nest (keys : list string) (v : Py.value) : Py.value :=
  match keys with
  | [] => v
  | k :: rest => Py.VDict {[k := nest rest v]}
  end.

(** ** Reading a trace *)

(** The stored configuration after the store writes of [evs], in order. *)
Definition replay_event (c : AppConfig) (e : event) : AppConfig :=
  match e with
  | EvMarkRunning => with_current_state Running c
  | EvMarkSuccess => with_current_state Succeeded c
  | EvSetLastTimestamp ts => with_last_timestamp ts c
  | EvSleep _ | EvFetch _ | EvSend _ _ | EvRemaining _ => c
  end.

Definition replay (evs : list event) (c : AppConfig) : AppConfig :=
  foldl replay_event c evs.

(** The batches handed to the sink, in order. *)
Fixpoint sends (evs : list event) : list (list Log) :=
  match evs with
  | [] => []
  | EvSend _ logs :: rest => logs :: sends rest
  | _ :: rest => sends rest
  end.

(** The number of records in a list of batches. *)
Definition records_in (batches : list (list Log)) : Z :=
  foldr (λ logs n, Z.of_nat (length logs) + n) 0 batches.

(** The watermarks written to the store, in order. *)
Fixpoint watermark_writes (evs : list event) : list Z :=
  match evs with
  | [] => []
  | EvSetLastTimestamp ts :: rest => ts :: watermark_writes rest
  | _ :: rest => watermark_writes rest
  end.

(** The sleeps of a trace. *)
Fixpoint sleeps (evs : list event) : list N :=
  match evs with
  | [] => []
  | EvSleep secs :: rest => secs :: sleeps rest
  | _ :: rest => sleeps rest
  end.

(** The subclass's [_gather_logs] never sets [_last_timestamp] to an
    earlier time than it finds there. *)
Definition adapter_monotone (env : Env) : Prop :=
  ∀ i app,
    match _gather_logs env i app with
    | Fetched _ ts _ => _last_timestamp app <= ts
    | FetchRaised _ => True
    end.

(** [nondecreasing lo l]: [l] never goes down and starts at [lo] or above. *)
Fixpoint nondecreasing (lo : Z) (l : list Z) : Prop :=
  match l with
  | [] => True
  | x :: rest => lo <= x ∧ nondecreasing x rest
  end.

(** The counters of a state agree with the sends of the events [evs] added
    since the state [st0]. *)
Definition counted (st0 : state) (s : state) : Prop :=
  ∃ evs, trace s = trace st0 ++ evs
    ∧ _poll_count (self s)
      = _poll_count (self st0) + Z.of_nat (length (sends evs))
    ∧ _gathered_log_count (self s)
      = _gathered_log_count (self st0) + records_in (sends evs).

(** The same up to the one batch whose send raised, or whose records were
    counted before the destination was found missing. *)
Definition counted_upto (st0 : state) (s : state) : Prop :=
  ∃ evs, trace s = trace st0 ++ evs
    ∧ _poll_count (self s) <= _poll_count (self st0) + Z.of_nat (length (sends evs))
    ∧ _poll_count (self st0) + Z.of_nat (length (sends evs)) <= _poll_count (self s) + 1
    ∧ _gathered_log_count (self st0) + records_in (sends evs)
      <= _gathered_log_count (self s).

(** More inputs for the statements. *)
Module MoreExamples.

(** A configuration without the item [function_name]. *)
Definition config_no_function (s : run_state) : AppConfig :=
  {| cfg_items :=
       <["auth" := CDict Examples.full_auth]> {["type" := CStr "zendesk_audit"]};
     current_state := s;
     last_timestamp := 100;
     start_last_timestamp := 100 |}.

(** Every page is empty and announces more data; the time runs out after
    the third query. *)
Definition env_all_empty : Env :=
  Examples.with_remaining
    (fun i => match i with 0%nat | 1%nat => 60000 | _ => 1000 end)
    (Examples.with_fetch
       (fun _ app => Fetched [] (_last_timestamp app) true) Examples.env_ok).

(** Two pages through the source interface of the spec. *)
Definition env_spec_two_pages : Env :=
  Examples.with_remaining (fun _ => 60000)
    (Examples.with_fetch
       (spec_gather_logs
          (fun i since =>
             match i with
             | O => ([Examples.log1], true)
             | S _ => ([Examples.log2; Examples.log3], false)
             end)) Examples.env_ok).

(** The time is up once the first cycle is done, although every page
    announces more data. *)
Definition env_time_up : Env :=
  Examples.with_remaining (fun _ => 0)
    (Examples.with_fetch
       (fun _ _ => Fetched [Examples.log1] 150 true) Examples.env_ok).

Definition zendesk : Registry.AppClass :=
  {| Registry.cls_service := "zendesk";
     Registry.cls_type := "audit";
     Registry.cls_new := fun c => Returned (__init__ c) |}.

(** A class whose constructor looks up a configuration item that is not
    there. *)
Definition broken : Registry.AppClass :=
  {| Registry.cls_service := "zendesk";
     Registry.cls_type := "audit";
     Registry.cls_new := fun _ => Raised (KeyError "region") |}.

Definition duo_admin_v2 : Registry.AppClass :=
  {| Registry.cls_service := "duo_admin";
     Registry.cls_type := "v2";
     Registry.cls_new := fun c => Returned (__init__ c) |}.

Definition duo_admin_v2' : Registry.AppClass :=
  {| Registry.cls_service := "duo";
     Registry.cls_type := "admin_v2";
     Registry.cls_new := fun c => Returned (with_poll_count 7 (__init__ c)) |}.

(** A parsed record with two normalized paths for [ipv4]. *)
Definition record : Py.value :=
  Py.VDict
    (<["normalized_types" :=
         Py.VDict {["ipv4" :=
           Py.VList [Py.VList [Py.VStr "detail"; Py.VStr "sourceIPAddress"];
                     Py.VList [Py.VStr "client"]]]}]>
       (<["detail" := Py.VDict {["sourceIPAddress" := Py.VStr "1.1.1.2"]}]>
          {["client" := Py.VStr "10.0.0.1"]})).

End MoreExamples.
(** * Properties *)

Arguments gather_loop : simpl never.

(** ** Strings *)

Lemma string_app_assoc (a b c : string) : (a +:+ b) +:+ c = a +:+ (b +:+ c).
Proof.
  induction a as [|ch a IH]; [reflexivity |].
  change (String ch ((a +:+ b) +:+ c) = String ch (a +:+ (b +:+ c))).
  by rewrite IH.
Qed.




(** ** Credential validation *)

Section Validation.

Variable env : Env.



(** Whatever it does, [_validate_auth] leaves the state alone, and what it
    raises is a configuration error. *)
Lemma _validate_auth_frame (st : state) :
  _validate_auth env st = (Returned tt, st)
  ∨ ∃ args, _validate_auth env st = (Raised (AppIntegrationConfigError args), st).
Proof.
  unfold _validate_auth, bind, get_self, ret, raise.
  destruct (Nat.eqb _ 0); [right; eauto |].
  destruct (cfg_items (_config (self st)) !! "auth"); [| right; eauto].
  case_bool_decide; [by left | right; eauto].
Qed.

End Validation.



(** With [subdomain] missing the error names exactly ['subdomain']. *)
Example validate_auth_missing_subdomain :
  fst (_validate_auth Examples.env_ok
         (Examples.fresh (Examples.config_with Examples.partial_auth Idle)))
  = Raised (AppIntegrationConfigError
      ["Auth config for service 'zendesk_audit' is missing the following required keys: 'subdomain'"]).
Proof. vm_compute. reflexivity. Qed.

(** With both keys missing the error names both. *)
Example validate_auth_missing_both :
  ∃ msg,
    fst (_validate_auth Examples.env_ok
           (Examples.fresh (Examples.config_with ∅ Idle)))
    = Raised (AppIntegrationConfigError [msg])
    ∧ mentions msg "'api_key'" ∧ mentions msg "'subdomain'".
Proof.
  eexists. split; [vm_compute; reflexivity |].
  split.
  - by exists "Auth config for service 'zendesk_audit' is missing the following required keys: 'subdomain', ", "".
  - by exists "Auth config for service 'zendesk_audit' is missing the following required keys: ", ", 'api_key'".
Qed.

(** A key beyond the required ones is accepted. *)
Example validate_auth_extra_key :
  fst (_validate_auth Examples.env_ok
         (Examples.fresh (Examples.config_with Examples.extra_auth Idle)))
  = Returned tt.
Proof. vm_compute. reflexivity. Qed.

(** ** One poll cycle *)

Section Cycle.

Variable env : Env.

Lemma _sleep_eq (st : state) :
  _sleep env st =
    (Returned tt,
     {| self := self st; trace := trace st ++ sleep_events env (self st) |}).
Proof.
  unfold _sleep, sleep_events, bind, get_self, ret, time_sleep, emit.
  destruct st as [a t]; simpl.
  destruct (_poll_count a =? 0); simpl; [by rewrite app_nil_r | done].
Qed.

Lemma _gather_eq (i : nat) (st : state) :
  _gather env i st =
    let '(r, app, evs) := cycle_outcome env i (self st) in
    (r, {| self := app;
           trace := trace st ++ sleep_events env (self st) ++ evs |}).
Proof.
  unfold _gather, bind at 1. rewrite _sleep_eq.
  unfold cycle_outcome, timeit, do_gather, call_gather_logs, config_item,
    call_send_logs, set_config_last_timestamp, bind, get_self, ret, raise,
    emit, modify, cycle_cost.
  destruct st as [a t]; simpl.
  destruct (_gather_logs env i a) as [[|l ls] ts more|e]; simpl;
    rewrite <- ?app_assoc; try done.
  destruct (cfg_items (_config a) !! "function_name") as [dest|]; simpl; [|done].
  destruct (send_logs env i dest (l :: ls)); simpl;
    rewrite <- ?app_assoc; done.
Qed.

(** One step of the loop, in terms of the cycle it runs. *)
Lemma gather_loop_eq (fuel : nat) (i : nat) (st : state) :
  gather_loop env (S fuel) i st =
    match _gather env i st with
    | (Returned g, st1) =>
        let ms := remaining_ms env i in
        let st2 :=
          {| self := self st1; trace := trace st1 ++ [EvRemaining ms] |} in
        if admits (projected_cost g (_sleep_seconds env (self st1))) ms then
          if _more_to_poll (self st1) then
            gather_loop env fuel (S i)
              {| self := with_more_to_poll false (self st1);
                 trace := trace st2 |}
          else (Returned tt, st2)
        else (Returned tt, st2)
    | (Raised e, st1) => (Raised e, st1)
    | (OutOfFuel, st1) => (OutOfFuel, st1)
    end.
Proof.
  unfold gather_loop; fold gather_loop. unfold bind at 1.
  destruct (_gather env i st) as [[g| |] st1]; try done.
  unfold bind, get_self, call_remaining_ms, emit, ret, modify. simpl.
  destruct (admits _ _); [|done].
  destruct st1 as [a1 t1]; cbn [self trace].
  destruct (_more_to_poll a1) eqn:Hmore;
    cbv beta iota delta [negb self trace]; rewrite ?Hmore; reflexivity.
Qed.

Lemma _initialize_eq (st : state) :
  _initialize env st =
    if is_running (_config (self st)) then (Returned false, st)
    else
      match _validate_auth env st with
      | (Returned _, _) => (Returned true, started st)
      | (Raised e, _) => (Raised e, st)
      | (OutOfFuel, _) => (OutOfFuel, st)
      end.
Proof.
  unfold _initialize, bind at 1, get_self.
  destruct (is_running (_config (self st))); [done |].
  unfold bind at 1.
  destruct (_validate_auth_frame env st) as [-> | [args ->]]; [| done].
  destruct st as [a t]. reflexivity.
Qed.

Lemma _finalize_eq (st : state) : _finalize st = (Returned tt, finalized st).
Proof.
  destruct st as [a t].
  unfold _finalize, mark_success, set_config_last_timestamp, finalized,
    bind, get_self, modify, emit. simpl.
  by rewrite <- app_assoc.
Qed.

Lemma gather_eq (fuel : nat) (st : state) :
  gather env fuel st =
    if is_running (_config (self st)) then (Returned tt, st)
    else
      match _validate_auth env st with
      | (Returned _, _) =>
          match gather_loop env fuel 0 (started st) with
          | (Returned _, st2) => (Returned tt, finalized st2)
          | (Raised e, st2) => (Raised e, st2)
          | (OutOfFuel, st2) => (OutOfFuel, st2)
          end
      | (Raised e, _) => (Raised e, st)
      | (OutOfFuel, _) => (OutOfFuel, st)
      end.
Proof.
  unfold gather, bind at 1. rewrite _initialize_eq.
  destruct (is_running (_config (self st))); [done |].
  destruct (_validate_auth_frame env st) as [-> | [args ->]]; [| done].
  cbv beta iota delta [negb]. unfold bind.
  destruct (gather_loop env fuel 0 (started st)) as [[[]| |] st2]; try done.
  apply _finalize_eq.
Qed.

End Cycle.

(** ** The mutual-exclusion guard *)

(** C2. When the stored status is already RUNNING, [gather] returns normally
    and leaves the whole state as it found it: nothing is fetched or sent
    (the trace is the same), and status and watermark are untouched. *)
Theorem gather_when_running (env : Env) (fuel : nat) (st : state) :
  current_state (_config (self st)) = Running →
  gather env fuel st = (Returned tt, st).
Proof.
  intros Hrun. rewrite gather_eq. unfold is_running.
  by rewrite bool_decide_eq_true_2.
Qed.

Lemma gather_when_running_witness :
  current_state (_config (self (Examples.fresh
      (Examples.config_with Examples.full_auth Running)))) = Running
  ∧ gather Examples.env_ok 3
      (Examples.fresh (Examples.config_with Examples.full_auth Running))
    = (Returned tt,
       Examples.fresh (Examples.config_with Examples.full_auth Running)).
Proof.
  split; [reflexivity |].
  apply (gather_when_running Examples.env_ok 3
           (Examples.fresh (Examples.config_with Examples.full_auth Running))).
  reflexivity.
Defined.

(** ** A failed validation *)

(** C5, as the code has it. When the job is not running and validation
    fails, [gather] raises that configuration error and the state is exactly
    as before the call: [_finalize] is not reached (no event is added) and
    the stored status keeps its previous value, which is not RUNNING,
    because validation comes before [mark_running]. *)
Theorem gather_validation_error
  (env : Env) (fuel : nat) (st st1 : state) (e : exn) :
  current_state (_config (self st)) ≠ Running →
  _validate_auth env st = (Raised e, st1) →
  (∃ args, e = AppIntegrationConfigError args)
  ∧ gather env fuel st = (Raised e, st)
  ∧ trace (gather env fuel st).2 = trace st
  ∧ current_state (_config (self (gather env fuel st).2))
    = current_state (_config (self st))
  ∧ current_state (_config (self (gather env fuel st).2)) ≠ Running.
Proof.
  intros Hrun Hval.
  assert (gather env fuel st = (Raised e, st)) as Hg.
  { rewrite gather_eq. unfold is_running.
    rewrite bool_decide_eq_false_2 by done. by rewrite Hval. }
  rewrite Hg. simpl. split; [| done].
  destruct (_validate_auth_frame env st) as [Hok | [args Hraise]].
  - rewrite Hok in Hval. discriminate.
  - rewrite Hraise in Hval. exists args. congruence.
Qed.

Lemma gather_validation_error_witness :
  let st := Examples.fresh (Examples.config_with Examples.partial_auth Idle) in
  let e := AppIntegrationConfigError
    ["Auth config for service 'zendesk_audit' is missing the following required keys: 'subdomain'"] in
  current_state (_config (self st)) ≠ Running
  ∧ _validate_auth Examples.env_ok st = (Raised e, st)
  ∧ gather Examples.env_ok 3 st = (Raised e, st)
  ∧ current_state (_config (self (gather Examples.env_ok 3 st).2)) = Idle.
Proof.
  intros st e.
  assert (current_state (_config (self st)) ≠ Running) as H1 by (by intros ?).
  assert (_validate_auth Examples.env_ok st = (Raised e, st)) as H2
    by (vm_compute; reflexivity).
  split; [exact H1 |]. split; [exact H2 |].
  destruct (gather_validation_error Examples.env_ok 3 st st e H1 H2)
    as (_ & Hg & _ & Hs & _).
  split; [exact Hg |]. rewrite Hs. reflexivity.
Defined.

(** C5, as the spec words it, fails: after a validation error the job is not
    in RUNNING status. *)
Lemma gather_validation_error_counterexample :
  ¬ (∀ (env : Env) (fuel : nat) (st st' : state) (args : list string),
       current_state (_config (self st)) ≠ Running →
       gather env fuel st = (Raised (AppIntegrationConfigError args), st') →
       current_state (_config (self st')) = Running).
Proof.
  intros Hclaim.
  specialize (Hclaim Examples.env_ok 3%nat
    (Examples.fresh (Examples.config_with Examples.partial_auth Idle))
    (Examples.fresh (Examples.config_with Examples.partial_auth Idle))
    ["Auth config for service 'zendesk_audit' is missing the following required keys: 'subdomain'"]).
  assert (Idle = Running) as Habs; [| discriminate Habs].
  apply Hclaim; [by intros ? | vm_compute; reflexivity].
Qed.

(** ** What one cycle does to the trace and to the configuration *)

Section CycleFacts.

Variable env : Env.

Lemma sleep_events_cycle (i : nat) (app : AppIntegration) :
  Forall (is_cycle_event i) (sleep_events env app).
Proof.
  unfold sleep_events. destruct (_poll_count app =? 0); repeat constructor.
Qed.

Lemma cycle_outcome_events (i : nat) (app : AppIntegration) :
  Forall (is_cycle_event i) (cycle_outcome env i app).2.
Proof.
  unfold cycle_outcome.
  destruct (_gather_logs env i app) as [[|l ls] ts more|e]; simpl;
    [repeat constructor | | repeat constructor].
  destruct (cfg_items (_config app) !! "function_name") as [dest|]; simpl;
    [| repeat constructor].
  destruct (send_logs env i dest (l :: ls)); simpl; repeat constructor.
Qed.

(** A cycle only appends events, all of them its own, the fetch among them. *)
Lemma _gather_trace (i : nat) (st : state) :
  ∃ evs, trace (_gather env i st).2 = trace st ++ evs
         ∧ Forall (is_cycle_event i) evs
         ∧ EvFetch i ∈ evs.
Proof.
  rewrite _gather_eq.
  pose proof (cycle_outcome_events i (self st)) as Hev.
  assert (EvFetch i ∈ (cycle_outcome env i (self st)).2) as Hin.
  { unfold cycle_outcome.
    destruct (_gather_logs env i (self st)) as [[|l ls] ts more|e]; simpl;
      [event_in | | event_in].
    destruct (cfg_items (_config (self st)) !! "function_name") as [dest|];
      simpl; [| event_in].
    destruct (send_logs env i dest (l :: ls)); simpl; event_in. }
  destruct (cycle_outcome env i (self st)) as [[r app] evs]. simpl in *.
  exists (sleep_events env (self st) ++ evs). split; [done |]. split.
  - apply Forall_app. split; [apply sleep_events_cycle | done].
  - apply elem_of_app. by right.
Qed.

(** A cycle touches nothing of the configuration but the watermark. *)
Lemma _gather_config (i : nat) (st : state) :
  current_state (_config (self (_gather env i st).2))
    = current_state (_config (self st))
  ∧ cfg_items (_config (self (_gather env i st).2))
    = cfg_items (_config (self st)).
Proof.
  rewrite _gather_eq. unfold cycle_outcome.
  destruct (_gather_logs env i (self st)) as [[|l ls] ts more|e]; simpl; try done.
  destruct (cfg_items (_config (self st)) !! "function_name") as [dest|];
    simpl; [| done].
  destruct (send_logs env i dest (l :: ls)); simpl; done.
Qed.

(** What a cycle that returns hands to the loop. *)
Lemma _gather_returned (i : nat) (st st1 : state) (g : PyNum.float) :
  _gather env i st = (Returned g, st1) →
  g = cycle_cost env i
  ∧ _more_to_poll (self st1) = flag_after env i (self st).
Proof.
  rewrite _gather_eq. unfold cycle_outcome, flag_after.
  destruct (_gather_logs env i (self st)) as [[|l ls] ts more|e]; simpl.
  - intros [= <- <-]. done.
  - destruct (cfg_items (_config (self st)) !! "function_name") as [dest|];
      simpl; [| discriminate].
    destruct (send_logs env i dest (l :: ls)); simpl; [| discriminate].
    intros [= <- <-]. done.
  - discriminate.
Qed.

(** A cycle never uses up the iteration bound. *)
Lemma _gather_fuel (i : nat) (st : state) : (_gather env i st).1 ≠ OutOfFuel.
Proof.
  rewrite _gather_eq. unfold cycle_outcome.
  destruct (_gather_logs env i (self st)) as [[|l ls] ts more|e]; simpl; try done.
  destruct (cfg_items (_config (self st)) !! "function_name") as [dest|];
    simpl; [| done].
  destruct (send_logs env i dest (l :: ls)); simpl; done.
Qed.

End CycleFacts.

(** ** Delivery before persistence *)

(** C1, as the code has it. In every poll cycle the watermark is written to
    the store only as the step right after the call that hands the cycle's
    records to the sink, and only when that call has returned.  When the
    call raises, the cycle and the loop end with that error and the
    configuration, the persisted watermark included, is as before the cycle.
    The value the call returns is not looked at. *)
Theorem persist_follows_delivery (env : Env) (i : nat) (st : state) :
  ∃ evs,
    trace (_gather env i st).2 = trace st ++ evs
    ∧ (∀ ts, EvSetLastTimestamp ts ∈ evs →
         ∃ dest l ls more ok,
           _gather_logs env i (self st) = Fetched (l :: ls) ts more
           ∧ send_logs env i dest (l :: ls) = SendReturned ok
           ∧ evs = sleep_events env (self st)
                   ++ [EvFetch i; EvSend dest (l :: ls); EvSetLastTimestamp ts])
    ∧ (∀ dest l ls ts more e,
         _gather_logs env i (self st) = Fetched (l :: ls) ts more →
         cfg_items (_config (self st)) !! "function_name" = Some dest →
         send_logs env i dest (l :: ls) = SendRaised e →
         (_gather env i st).1 = Raised e
         ∧ _config (self (_gather env i st).2) = _config (self st)
         ∧ (∀ ts', EvSetLastTimestamp ts' ∉ evs)
         ∧ ∀ fuel, gather_loop env (S fuel) i st
                   = (Raised e, (_gather env i st).2)).
Proof.
  assert (∀ ts, EvSetLastTimestamp ts ∉ sleep_events env (self st)) as Hsl.
  { intros ts Hin. unfold sleep_events in Hin.
    destruct (_poll_count (self st) =? 0); event_not_in Hin. }
  pose proof (gather_loop_eq env) as Hloop.
  setoid_rewrite _gather_eq in Hloop. rewrite _gather_eq.
  unfold cycle_outcome in *.
  destruct (_gather_logs env i (self st)) as [[|l ls] ts more|e] eqn:Hf; simpl.
  - eexists. split; [done |]. split.
    + intros ts' [Hin | Hin]%elem_of_app; [by apply Hsl in Hin | event_not_in Hin].
    + intros ?????? [=].
  - destruct (cfg_items (_config (self st)) !! "function_name") as [dest|] eqn:Hd;
      simpl.
    + destruct (send_logs env i dest (l :: ls)) as [ok|e] eqn:Hs; simpl.
      * eexists. split; [done |]. split.
        -- intros ts' [Hin | Hin]%elem_of_app; [by apply Hsl in Hin |].
           assert (ts' = ts) as ->.
           { do 2 (apply elem_of_cons in Hin as [Hin | Hin]; [discriminate Hin |]).
             apply list_elem_of_singleton in Hin. congruence. }
           by exists dest, l, ls, more, ok.
        -- intros dest' l' ls' ts' more' e' [= <- <- <- <-] [= <-] Hs'.
           rewrite Hs in Hs'. discriminate.
      * eexists. split; [done |]. split.
        -- intros ts' [Hin | Hin]%elem_of_app; [by apply Hsl in Hin | event_not_in Hin].
        -- intros dest' l' ls' ts' more' e' [= <- <- <- <-] [= <-] Hs'.
           rewrite Hs in Hs'. injection Hs' as <-.
           split; [done |]. split; [done |]. split.
           ++ intros ts' [Hin | Hin]%elem_of_app; [by apply Hsl in Hin | event_not_in Hin].
           ++ intros fuel. rewrite Hloop, Hf, Hd, Hs. done.
    + eexists. split; [done |]. split.
      * intros ts' [Hin | Hin]%elem_of_app; [by apply Hsl in Hin | event_not_in Hin].
      * intros dest' l' ls' ts' more' e' _ [=].
  - eexists. split; [done |]. split.
    + intros ts' [Hin | Hin]%elem_of_app; [by apply Hsl in Hin | event_not_in Hin].
    + intros ?????? [=].
Qed.

(** The sink raises: the run ends with the error and the stored watermark
    is still the one the run started from. *)
Lemma persist_follows_delivery_witness :
  let st := started (Examples.fresh (Examples.config_with Examples.full_auth Idle)) in
  let r := _gather Examples.env_send_raises 0 st in
  r.1 = Raised (OtherError ["ClientError"])
  ∧ _config (self r.2) = _config (self st)
  ∧ last_timestamp (_config (self r.2)) = 100.
Proof.
  intros st r.
  destruct (persist_follows_delivery Examples.env_send_raises 0 st)
    as (evs & _ & _ & Hraise).
  destruct (Hraise (CStr "rule_processor") Examples.log1
              [Examples.log2; Examples.log3] 170 false
              (OtherError ["ClientError"]))
    as (H1 & H2 & _); [reflexivity | reflexivity | reflexivity |].
  split; [exact H1 |]. split; [exact H2 |].
  unfold r. rewrite H2. reflexivity.
Defined.

(** C1, as the spec words it, fails: a delivery that reports its failure by
    returning a false indicator does not hold the watermark back. *)
Lemma persist_follows_delivery_counterexample :
  ¬ (∀ (env : Env) (i : nat) (st : state) dest l ls ts more,
       _gather_logs env i (self st) = Fetched (l :: ls) ts more →
       cfg_items (_config (self st)) !! "function_name" = Some dest →
       send_failed (send_logs env i dest (l :: ls)) = true →
       last_timestamp (_config (self (_gather env i st).2))
       = last_timestamp (_config (self st))).
Proof.
  intros Hclaim.
  specialize (Hclaim Examples.env_send_false 0%nat
    (started (Examples.fresh (Examples.config_with Examples.full_auth Idle)))
    (CStr "rule_processor") Examples.log1 [Examples.log2; Examples.log3]
    170 false eq_refl eq_refl eq_refl).
  vm_compute in Hclaim. discriminate Hclaim.
Qed.

(** ** The loop *)

Section Loop.

Variable env : Env.

Lemma gather_loop_zero (i : nat) (st : state) :
  gather_loop env 0 i st = (OutOfFuel, st).
Proof. reflexivity. Qed.

(** A property of the state that every step of the loop keeps holds when
    the loop ends. *)
Lemma gather_loop_invariant (P : state → Prop) :
  (∀ i st, P st → P (_gather env i st).2) →
  (∀ ms st, P st →
     P {| self := self st; trace := trace st ++ [EvRemaining ms] |}) →
  (∀ st, P st →
     P {| self := with_more_to_poll false (self st); trace := trace st |}) →
  ∀ fuel i st, P st → P (gather_loop env fuel i st).2.
Proof.
  intros Hcycle Hrem Hflag fuel.
  induction fuel as [|fuel IH]; intros i st HP; [by rewrite gather_loop_zero |].
  rewrite gather_loop_eq.
  specialize (Hcycle i st HP).
  destruct (_gather env i st) as [[g| |] st1]; simpl in *; try done.
  specialize (Hrem (remaining_ms env i) st1 Hcycle).
  destruct (admits _ _); [| done].
  destruct (_more_to_poll (self st1)); [| done].
  apply IH. apply (Hflag _ Hrem).
Qed.

Lemma cycle_event_loop_event (i : nat) (e : event) :
  is_cycle_event i e → is_loop_event e.
Proof. by destruct e. Qed.

(** The loop only appends events, none of them a status write. *)
Lemma gather_loop_trace (fuel i : nat) (st : state) :
  ∃ evs, trace (gather_loop env fuel i st).2 = trace st ++ evs
         ∧ Forall is_loop_event evs.
Proof.
  apply (gather_loop_invariant
           (λ st', ∃ evs, trace st' = trace st ++ evs ∧ Forall is_loop_event evs)).
  - intros j st' (evs & Htr & Hev).
    destruct (_gather_trace env j st') as (evs' & Htr' & Hev' & _).
    exists (evs ++ evs'). rewrite Htr', Htr, app_assoc. split; [done |].
    apply Forall_app. split; [done |].
    eapply Forall_impl; [exact Hev' | apply cycle_event_loop_event].
  - intros ms st' (evs & Htr & Hev). simpl.
    exists (evs ++ [EvRemaining ms]). rewrite Htr, app_assoc. split; [done |].
    apply Forall_app. split; [done | by repeat constructor].
  - intros st' (evs & Htr & Hev). by exists evs.
  - exists []. by rewrite app_nil_r.
Qed.

(** The loop leaves the stored status alone. *)
Lemma gather_loop_status (fuel i : nat) (st : state) :
  current_state (_config (self (gather_loop env fuel i st).2))
  = current_state (_config (self st)).
Proof.
  apply (gather_loop_invariant
           (λ st', current_state (_config (self st'))
                   = current_state (_config (self st)))); try done.
  intros j st' <-. apply _gather_config.
Qed.

(** Enough fuel gives a result: the loop is over after iteration [k]. *)
Lemma gather_loop_stops (k : nat) :
  stops_at env k →
  ∀ fuel i st, (i ≤ k)%nat → (k < i + fuel)%nat →
    (gather_loop env fuel i st).1 ≠ OutOfFuel.
Proof.
  intros Hstop fuel.
  induction fuel as [|fuel IH]; intros i st Hik Hk; [lia |].
  rewrite gather_loop_eq.
  pose proof (_gather_fuel env i st) as Hfuel.
  destruct (_gather env i st) as [[g| |] st1] eqn:Hg; simpl in *; try done.
  apply _gather_returned in Hg as [-> Hflag].
  destruct (admits _ _) eqn:Hadm; [| done].
  destruct (_more_to_poll (self st1)) eqn:Hmore; [| done].
  destruct (decide (i = k)) as [-> | Hne].
  - exfalso. destruct Hstop as [Hcost | Hnoflag].
    + rewrite Hcost in Hadm. discriminate.
    + rewrite Hnoflag in Hflag. discriminate.
  - apply IH; lia.
Qed.

(** From a cleared flag on, every iteration but the first follows a fetch
    that found the flag cleared and left it set. *)
Lemma gather_loop_fetches (fuel i : nat) (st : state) :
  _more_to_poll (self st) = false →
  ∃ evs, trace (gather_loop env fuel i st).2 = trace st ++ evs
    ∧ ∀ j, EvFetch j ∈ evs →
        j = i
        ∨ ∃ k app, j = S k ∧ (i ≤ k)%nat
            ∧ _more_to_poll app = false ∧ flag_after env k app = true.
Proof.
  revert i st. induction fuel as [|fuel IH]; intros i st Hclear.
  { exists []. rewrite gather_loop_zero, app_nil_r. split; [done |].
    intros j Hin. by apply elem_of_nil in Hin. }
  rewrite gather_loop_eq.
  destruct (_gather_trace env i st) as (evs1 & Htr1 & Hev1 & _).
  assert (∀ j, EvFetch j ∈ evs1 → j = i) as Hidx.
  { intros j Hin. rewrite Forall_forall in Hev1. exact (Hev1 _ Hin). }
  destruct (_gather env i st) as [[g| |] st1] eqn:Hg; simpl in *;
    try (exists evs1; split; [done | intros j Hin; left; by apply Hidx]).
  apply _gather_returned in Hg as [-> Hflag].
  assert (∀ j, EvFetch j ∈ evs1 ++ [EvRemaining (remaining_ms env i)] → j = i)
    as Hidx'.
  { intros j [Hin | Hin]%elem_of_app; [by apply Hidx | event_not_in Hin]. }
  destruct (admits _ _);
    [| exists (evs1 ++ [EvRemaining (remaining_ms env i)]);
       rewrite Htr1, app_assoc; split; [done | intros j Hin; left; by apply Hidx']].
  destruct (_more_to_poll (self st1)) eqn:Hmore;
    [| exists (evs1 ++ [EvRemaining (remaining_ms env i)]);
       rewrite Htr1, app_assoc; split; [done | intros j Hin; left; by apply Hidx']].
  edestruct (IH (S i)) as (evs2 & Htr2 & Hev2); [| rewrite Htr2]; [done |].
  simpl. exists ((evs1 ++ [EvRemaining (remaining_ms env i)]) ++ evs2).
  rewrite Htr1, !app_assoc. split; [done |].
  intros j [Hin | Hin]%elem_of_app; [left; by apply Hidx' |].
  right. destruct (Hev2 j Hin) as [-> | (k & app & -> & Hle & Hc & Hs)].
  - exists i, (self st). rewrite <- Hflag. done.
  - exists k, app. repeat split; try done. lia.
Qed.

(** From a cleared flag on, a fetch that does not set the flag ends the
    loop: there is no iteration after [k], whatever time is left. *)
Lemma gather_loop_flag_stops (k : nat) :
  (∀ app, _more_to_poll app = false → flag_after env k app = false) →
  ∀ fuel i st, _more_to_poll (self st) = false →
    (i ≤ k)%nat → (k < i + fuel)%nat →
    (gather_loop env fuel i st).1 ≠ OutOfFuel.
Proof.
  intros Hstop fuel.
  induction fuel as [|fuel IH]; intros i st Hclear Hik Hk; [lia |].
  rewrite gather_loop_eq.
  pose proof (_gather_fuel env i st) as Hfuel.
  destruct (_gather env i st) as [[g| |] st1] eqn:Hg; simpl in *; try done.
  apply _gather_returned in Hg as [-> Hflag].
  destruct (admits _ _) eqn:Hadm; [| done].
  destruct (_more_to_poll (self st1)) eqn:Hmore; [| done].
  destruct (decide (i = k)) as [-> | Hne].
  - exfalso. rewrite (Hstop _ Hclear) in Hflag. discriminate.
  - apply IH; [done | lia | lia].
Qed.

End Loop.

(** ** Finalization *)

(** C4, as the code has it. When [_initialize] starts the run, the run has
    three ways to go.  If the loop ends normally, with or without a
    successful iteration, [_finalize] runs last: it writes SUCCEEDED and
    then the final watermark.  If an iteration raises, the error leaves
    [gather] at once: [_finalize] is not invoked, no terminal status is
    written and the stored status stays RUNNING.  The model runs out of
    iterations only if none of the iterations it followed was a last one. *)
Theorem finalize_after_loop (env : Env) (fuel : nat) (st : state) :
  current_state (_config (self st)) ≠ Running →
  _validate_auth env st = (Returned tt, st) →
  ∃ evs,
    trace (gather env fuel st).2 = trace st ++ EvMarkRunning :: evs
    ∧ match (gather env fuel st).1 with
      | Returned _ =>
          ∃ evs',
            evs = evs' ++ [EvMarkSuccess;
                           EvSetLastTimestamp
                             (_last_timestamp (self (gather env fuel st).2))]
            ∧ Forall is_loop_event evs'
            ∧ current_state (_config (self (gather env fuel st).2)) = Succeeded
            ∧ last_timestamp (_config (self (gather env fuel st).2))
              = _last_timestamp (self (gather env fuel st).2)
      | Raised _ =>
          Forall is_loop_event evs
          ∧ current_state (_config (self (gather env fuel st).2)) = Running
      | OutOfFuel => ∀ k, (k < fuel)%nat → ¬ stops_at env k
      end.
Proof.
  intros Hrun Hval. rewrite gather_eq. unfold is_running.
  rewrite bool_decide_eq_false_2 by done. rewrite Hval.
  destruct (gather_loop_trace env fuel 0 (started st)) as (evs & Htr & Hev).
  pose proof (gather_loop_status env fuel 0 (started st)) as Hst.
  pose proof (λ k Hs, gather_loop_stops env k Hs fuel 0%nat (started st)) as Hfuel.
  destruct (gather_loop env fuel 0 (started st)) as [[[]| |] st2]; simpl in *.
  - exists (evs ++ [EvMarkSuccess; EvSetLastTimestamp (_last_timestamp (self st2))]).
    rewrite Htr, <- !app_assoc. split; [done |]. by exists evs.
  - exists evs. rewrite Htr, <- app_assoc. done.
  - exists evs. rewrite Htr, <- app_assoc. split; [done |].
    intros k Hk Hs. apply (Hfuel k Hs); [lia | lia | done].
Qed.

(** A run of one page: the loop ends, then SUCCEEDED and the watermark are
    written. *)
Lemma finalize_after_loop_witness :
  let st := Examples.fresh (Examples.config_with Examples.full_auth Idle) in
  current_state (_config (self st)) ≠ Running
  ∧ _validate_auth Examples.env_ok st = (Returned tt, st)
  ∧ ∃ evs, trace (gather Examples.env_ok 3 st).2 = trace st ++ EvMarkRunning :: evs.
Proof.
  intros st.
  assert (current_state (_config (self st)) ≠ Running) as H1 by (by intros ?).
  assert (_validate_auth Examples.env_ok st = (Returned tt, st)) as H2
    by (vm_compute; reflexivity).
  split; [exact H1 |]. split; [exact H2 |].
  destruct (finalize_after_loop Examples.env_ok 3 st H1 H2) as (evs & Htr & _).
  exists evs. exact Htr.
Defined.

(** C4, as the spec words it, fails: an iteration that raises is not
    followed by [_finalize], and FAILED is not written. *)
Lemma finalize_after_loop_counterexample :
  ¬ (∀ (env : Env) (fuel : nat) (st : state),
       current_state (_config (self st)) ≠ Running →
       _validate_auth env st = (Returned tt, st) →
       (gather env fuel st).1 ≠ OutOfFuel →
       EvMarkSuccess ∈ trace (gather env fuel st).2
       ∧ current_state (_config (self (gather env fuel st).2))
         = match (gather env fuel st).1 with
           | Raised _ => Failed
           | _ => Succeeded
           end).
Proof.
  intros Hclaim.
  destruct (Hclaim Examples.env_fetch_raises 3%nat
              (Examples.fresh (Examples.config_with Examples.full_auth Idle)))
    as [_ Hstatus].
  - by intros ?.
  - vm_compute. reflexivity.
  - vm_compute. by intros ?.
  - vm_compute in Hstatus. discriminate Hstatus.
Qed.

(** The run of the counterexample, event by event. *)
Example gather_fetch_raises :
  let r := gather Examples.env_fetch_raises 3
             (Examples.fresh (Examples.config_with Examples.full_auth Idle)) in
  r.1 = Raised (OtherError ["ConnectionError"])
  ∧ trace r.2 = [EvMarkRunning; EvFetch 0]
  ∧ current_state (_config (self r.2)) = Running.
Proof. vm_compute. done. Qed.

(** ** The watermark over a run *)

Lemma advance_watermark_ge (since : Z) (records : list Log) :
  since <= advance_watermark since records.
Proof.
  unfold advance_watermark. induction records as [|r rs IH]; simpl; lia.
Qed.

Lemma spec_gather_logs_advances (e : Env) (fetchNext : nat -> Z -> list Log * bool) :
  adapter_advances (Examples.with_fetch (spec_gather_logs fetchNext) e).
Proof.
  intros i app. simpl. unfold spec_gather_logs.
  destruct (fetchNext i (_last_timestamp app)) as [records more].
  split; [apply advance_watermark_ge | by intros ->].
Qed.

(** C6. With a subclass that advances the watermark as the spec says, a run
    that returns leaves a stored watermark that is not below the one it
    started from, and equal to it when the run gathered no record. *)
Theorem watermark_monotone (env : Env) (fuel : nat) (st st' : state) :
  adapter_advances env →
  gather env fuel st = (Returned tt, st') →
  last_timestamp (_config (self st)) <= last_timestamp (_config (self st'))
  ∧ (_gathered_log_count (self st') = _gathered_log_count (self st) →
     last_timestamp (_config (self st')) = last_timestamp (_config (self st))).
Proof.
  intros Hadv. rewrite gather_eq.
  destruct (is_running (_config (self st))); [by intros [= <-] |].
  destruct (_validate_auth_frame env st) as [-> | [args ->]]; [| discriminate].
  set (start := last_timestamp (_config (self st))).
  set (c0 := _gathered_log_count (self st)).
  pose proof (gather_loop_invariant env
    (λ s, start <= _last_timestamp (self s)
          ∧ c0 <= _gathered_log_count (self s)
          ∧ (_gathered_log_count (self s) = c0 → _last_timestamp (self s) = start)))
    as Hinv.
  specialize (Hinv) with (fuel := fuel) (i := 0%nat) (st := started st).
  destruct (gather_loop env fuel 0 (started st)) as [[[]| |] st2];
    [| discriminate | discriminate].
  intros [= <-]. simpl in *.
  enough (start <= _last_timestamp (self st2)
          ∧ c0 <= _gathered_log_count (self st2)
          ∧ (_gathered_log_count (self st2) = c0 → _last_timestamp (self st2) = start))
    as (? & ? & ?) by done.
  apply Hinv; [| done | done | unfold start, c0; simpl; lia].
  clear Hinv. intros i s (Hts & Hc & Heq).
  rewrite _gather_eq. unfold cycle_outcome.
  specialize (Hadv i (self s)).
  destruct (_gather_logs env i (self s)) as [[|l ls] ts more|e]; simpl.
  - destruct Hadv as [Hle Hsame]. rewrite (Hsame eq_refl). done.
  - destruct Hadv as [Hle _].
    destruct (cfg_items (_config (self s)) !! "function_name") as [dest|]; simpl;
      [destruct (send_logs env i dest (l :: ls)); simpl |]; lia.
  - done.
Qed.

Lemma watermark_monotone_witness :
  let st := Examples.fresh (Examples.config_with Examples.full_auth Idle) in
  let r := gather Examples.env_spec_source 3 st in
  adapter_advances Examples.env_spec_source
  ∧ r.1 = Returned tt
  ∧ last_timestamp (_config (self st)) <= last_timestamp (_config (self r.2)).
Proof.
  intros st r.
  assert (adapter_advances Examples.env_spec_source) as H1
    by apply spec_gather_logs_advances.
  assert (gather Examples.env_spec_source 3 st = (Returned tt, r.2)) as H2
    by (vm_compute; reflexivity).
  split; [exact H1 |]. split; [vm_compute; reflexivity |].
  exact (proj1 (watermark_monotone Examples.env_spec_source 3 st r.2 H1 H2)).
Defined.

(** ** The continuation flag *)

(** C8. The flag is single-use.  When a completed cycle is admitted, the
    loop goes on exactly if the flag is set, and it clears the flag before
    the next iteration starts; with the flag unset it ends there, whatever
    time is left.  So, from the cleared flag a new instance has, an iteration
    after the first takes place only if the fetch of the iteration before it
    found the flag cleared and set it, and a fetch that leaves the flag
    cleared is the last one. *)
Theorem continuation_flag_consumed (env : Env) (fuel : nat) (st : state) :
  _more_to_poll (self st) = false →
  (∀ i s g s1,
     _gather env i s = (Returned g, s1) →
     admits (projected_cost g (_sleep_seconds env (self s1)))
            (remaining_ms env i) = true →
     gather_loop env (S fuel) i s =
       if _more_to_poll (self s1) then
         gather_loop env fuel (S i)
           {| self := with_more_to_poll false (self s1);
              trace := trace s1 ++ [EvRemaining (remaining_ms env i)] |}
       else
         (Returned tt,
          {| self := self s1;
             trace := trace s1 ++ [EvRemaining (remaining_ms env i)] |}))
  ∧ ∃ evs,
      trace (gather env fuel st).2 = trace st ++ evs
      ∧ (∀ k, EvFetch (S k) ∈ evs →
           ∃ app, _more_to_poll app = false ∧ flag_after env k app = true)
      ∧ (∀ k,
           (∀ app, _more_to_poll app = false → flag_after env k app = false) →
           (EvFetch (S k) ∉ evs)
           ∧ ((k < fuel)%nat → (gather env fuel st).1 ≠ OutOfFuel)).
Proof.
  intros Hclear. split.
  { intros i s g s1 Hg Hadm. rewrite gather_loop_eq, Hg. simpl. by rewrite Hadm. }
  assert (∃ evs,
    trace (gather env fuel st).2 = trace st ++ evs
    ∧ (∀ k, EvFetch (S k) ∈ evs →
         ∃ app, _more_to_poll app = false ∧ flag_after env k app = true)
    ∧ ((gather env fuel st).1 = OutOfFuel →
       (gather_loop env fuel 0 (started st)).1 = OutOfFuel))
    as (evs & Htr & Hfetch & Hfuel).
  { rewrite gather_eq.
    destruct (is_running (_config (self st))).
    { exists []. rewrite app_nil_r. split; [done |]. split; [| done].
      intros k Hin. by apply elem_of_nil in Hin. }
    destruct (_validate_auth_frame env st) as [-> | [args ->]].
    2: { exists []. rewrite app_nil_r. split; [done |]. split; [| done].
         intros k Hin. by apply elem_of_nil in Hin. }
    destruct (gather_loop_fetches env fuel 0 (started st) Hclear)
      as (evs1 & Htr1 & Hev1).
    assert (∀ k, EvFetch (S k) ∈ evs1 →
              ∃ app, _more_to_poll app = false ∧ flag_after env k app = true)
      as Hev1'.
    { intros k Hin.
      destruct (Hev1 _ Hin) as [[=] | (k' & app & [= ->] & _ & Hc & Hs)].
      by exists app. }
    destruct (gather_loop env fuel 0 (started st)) as [[[]| |] st2]; simpl in *.
    - exists (EvMarkRunning :: evs1
              ++ [EvMarkSuccess; EvSetLastTimestamp (_last_timestamp (self st2))]).
      rewrite Htr1, <- !app_assoc. split; [done |]. split; [| done].
      intros k [[=] | [Hin | Hin]%elem_of_app]%elem_of_cons;
        [by apply Hev1' | event_not_in Hin].
    - exists (EvMarkRunning :: evs1). rewrite Htr1, <- app_assoc.
      split; [done |]. split; [| done].
      intros k [[=] | Hin]%elem_of_cons. by apply Hev1'.
    - exists (EvMarkRunning :: evs1). rewrite Htr1, <- app_assoc.
      split; [done |]. split; [| done].
      intros k [[=] | Hin]%elem_of_cons. by apply Hev1'. }
  exists evs. split; [done |]. split; [done |].
  intros k Hstop. split.
  - intros Hin. destruct (Hfetch k Hin) as (app & Hc & Hs).
    rewrite (Hstop app Hc) in Hs. discriminate.
  - intros Hk Hout.
    apply (gather_loop_flag_stops env k Hstop fuel 0%nat (started st));
      [done | lia | lia | by apply Hfuel].
Qed.

(** Two pages: the second iteration follows the fetch that set the flag, and
    the second fetch, which leaves it cleared, is the last one although a
    minute is left. *)
Lemma continuation_flag_consumed_witness :
  let st := Examples.fresh (Examples.config_with Examples.full_auth Idle) in
  _more_to_poll (self st) = false
  ∧ ∃ evs,
      trace (gather Examples.env_two_pages 3 st).2 = trace st ++ evs
      ∧ (EvFetch 2 ∉ evs)
      ∧ (gather Examples.env_two_pages 3 st).1 ≠ OutOfFuel.
Proof.
  intros st. split; [reflexivity |].
  destruct (continuation_flag_consumed Examples.env_two_pages 3 st eq_refl)
    as (_ & evs & Htr & _ & Hlast).
  exists evs. split; [exact Htr |].
  destruct (Hlast 1%nat) as [Hno Hfuel].
  - intros app _. reflexivity.
  - split; [exact Hno | apply Hfuel; lia].
Defined.

(** ** The first cycle *)

(** C10. When [_initialize] starts the run, the first poll cycle is run in
    full right after the status is set to RUNNING and before the remaining
    time is asked for the first time: the trace of the run begins with the
    trace of that cycle, which holds the fetch and, when records came back
    and the send returned, the send and the write of the watermark, but no
    query of the remaining time.  The write is a write to the store: when
    the remaining time is asked for, the stored watermark is the one the
    fetch of the first cycle brought, and the status is RUNNING.  When the
    fetch brought no record, the stored watermark is still the one the run
    found.  Nothing is assumed about the time that is left. *)
Theorem first_cycle_before_admission (env : Env) (fuel : nat) (st : state) :
  current_state (_config (self st)) ≠ Running →
  _validate_auth env st = (Returned tt, st) →
  ∃ evs rest,
    trace (_gather env 0 (started st)).2 = trace st ++ EvMarkRunning :: evs
    ∧ trace (gather env (S fuel) st).2 = trace st ++ EvMarkRunning :: evs ++ rest
    ∧ Forall (is_cycle_event 0) evs
    ∧ EvFetch 0 ∈ evs
    ∧ (∀ ms, EvRemaining ms ∉ evs)
    ∧ (∀ dest l ls ts more ok,
         _gather_logs env 0 (self (started st)) = Fetched (l :: ls) ts more →
         cfg_items (_config (self st)) !! "function_name" = Some dest →
         send_logs env 0 dest (l :: ls) = SendReturned ok →
         evs = sleep_events env (self (started st))
               ++ [EvFetch 0; EvSend dest (l :: ls); EvSetLastTimestamp ts])
    ∧ (∀ dest l ls ts more ok,
         _gather_logs env 0 (self (started st)) = Fetched (l :: ls) ts more →
         cfg_items (_config (self st)) !! "function_name" = Some dest →
         send_logs env 0 dest (l :: ls) = SendReturned ok →
         (_gather env 0 (started st)).1 = Returned (cycle_cost env 0)
         ∧ last_timestamp (_config (self (_gather env 0 (started st)).2)) = ts
         ∧ current_state (_config (self (_gather env 0 (started st)).2)) = Running)
    ∧ (∀ ts more,
         _gather_logs env 0 (self (started st)) = Fetched [] ts more →
         last_timestamp (_config (self (_gather env 0 (started st)).2))
         = last_timestamp (_config (self st)))
    ∧ match (_gather env 0 (started st)).1 with
      | Returned _ => ∃ rest', rest = EvRemaining (remaining_ms env 0) :: rest'
      | _ => rest = []
      end.
Proof.
  intros Hrun Hval. rewrite gather_eq. unfold is_running.
  rewrite bool_decide_eq_false_2 by done. rewrite Hval.
  rewrite gather_loop_eq.
  destruct (_gather_trace env 0 (started st)) as (evs & Htr & Hev & Hin).
  assert (trace (_gather env 0 (started st)).2 = trace st ++ EvMarkRunning :: evs)
    as Htr'.
  { rewrite Htr. simpl. by rewrite <- app_assoc. }
  assert (∀ ms, EvRemaining ms ∉ evs) as Hnorem.
  { intros ms Hms. rewrite Forall_forall in Hev. exact (Hev _ Hms). }
  assert (∀ dest l ls ts more ok,
    _gather_logs env 0 (self (started st)) = Fetched (l :: ls) ts more →
    cfg_items (_config (self st)) !! "function_name" = Some dest →
    send_logs env 0 dest (l :: ls) = SendReturned ok →
    evs = sleep_events env (self (started st))
          ++ [EvFetch 0; EvSend dest (l :: ls); EvSetLastTimestamp ts]) as Hfull.
  { intros dest l ls ts more ok Hf Hd Hs.
    rewrite _gather_eq in Htr. unfold cycle_outcome in Htr.
    rewrite Hf in Htr. simpl in Htr. rewrite Hd, Hs in Htr. simpl in Htr.
    by apply app_inv_head in Htr. }
  assert (∀ dest l ls ts more ok,
    _gather_logs env 0 (self (started st)) = Fetched (l :: ls) ts more →
    cfg_items (_config (self st)) !! "function_name" = Some dest →
    send_logs env 0 dest (l :: ls) = SendReturned ok →
    (_gather env 0 (started st)).1 = Returned (cycle_cost env 0)
    ∧ last_timestamp (_config (self (_gather env 0 (started st)).2)) = ts
    ∧ current_state (_config (self (_gather env 0 (started st)).2)) = Running)
    as Hstore.
  { intros dest l ls ts more ok Hf Hd Hs.
    rewrite _gather_eq. unfold cycle_outcome.
    rewrite Hf. simpl. rewrite Hd, Hs. simpl. done. }
  assert (∀ ts more,
    _gather_logs env 0 (self (started st)) = Fetched [] ts more →
    last_timestamp (_config (self (_gather env 0 (started st)).2))
    = last_timestamp (_config (self st))) as Hkept.
  { intros ts more Hf. rewrite _gather_eq. unfold cycle_outcome.
    rewrite Hf. simpl. done. }
  exists evs.
  destruct (_gather env 0 (started st)) as [[g| |] st1] eqn:Hg; simpl in *.
  - set (st2 := {| self := self st1;
                   trace := trace st1 ++ [EvRemaining (remaining_ms env 0)] |}).
    destruct (admits _ _).
    + destruct (_more_to_poll (self st1)).
      * destruct (gather_loop_trace env fuel 1
                    {| self := with_more_to_poll false (self st1);
                       trace := trace st2 |}) as (evs2 & Htr2 & _).
        destruct (gather_loop env fuel 1 _) as [[[]| |] st3]; simpl in *.
        -- exists (EvRemaining (remaining_ms env 0) :: evs2
                   ++ [EvMarkSuccess; EvSetLastTimestamp (_last_timestamp (self st3))]).
           rewrite Htr2, Htr'. rewrite <- ?app_assoc. simpl.
           rewrite <- ?app_assoc. simpl. split_and!; try done; eauto.
        -- exists (EvRemaining (remaining_ms env 0) :: evs2).
           rewrite Htr2, Htr'. rewrite <- ?app_assoc. simpl.
           rewrite <- ?app_assoc. simpl. split_and!; try done; eauto.
        -- exists (EvRemaining (remaining_ms env 0) :: evs2).
           rewrite Htr2, Htr'. rewrite <- ?app_assoc. simpl.
           rewrite <- ?app_assoc. simpl. split_and!; try done; eauto.
      * exists [EvRemaining (remaining_ms env 0); EvMarkSuccess;
                EvSetLastTimestamp (_last_timestamp (self st1))].
        simpl. rewrite Htr'. rewrite <- ?app_assoc. simpl.
        rewrite <- ?app_assoc. simpl. split_and!; try done; eauto.
    + exists [EvRemaining (remaining_ms env 0); EvMarkSuccess;
              EvSetLastTimestamp (_last_timestamp (self st1))].
      simpl. rewrite Htr'. rewrite <- ?app_assoc. simpl.
      rewrite <- ?app_assoc. simpl. split_and!; try done; eauto.
  - exists []. rewrite app_nil_r. split_and!; try done; eauto.
  - exists []. rewrite app_nil_r. split_and!; try done; eauto.
Qed.

(** No time is left when the run starts, and the first cycle still fetches,
    sends and writes the watermark before the time is looked at: the stored
    watermark goes from 100 to 170. *)
Lemma first_cycle_before_admission_witness :
  let st := Examples.fresh (Examples.config_with Examples.full_auth Idle) in
  current_state (_config (self st)) ≠ Running
  ∧ _validate_auth Examples.env_no_time st = (Returned tt, st)
  ∧ remaining_ms Examples.env_no_time 0 < 0
  ∧ last_timestamp (_config (self st)) = 100
  ∧ last_timestamp
      (_config (self (_gather Examples.env_no_time 0 (started st)).2)) = 170
  ∧ ∃ rest,
      trace (gather Examples.env_no_time 1 st).2
      = trace st
        ++ EvMarkRunning
           :: [EvFetch 0;
               EvSend (CStr "rule_processor")
                 [Examples.log1; Examples.log2; Examples.log3];
               EvSetLastTimestamp 170]
           ++ rest.
Proof.
  intros st.
  assert (current_state (_config (self st)) ≠ Running) as H1 by (by intros ?).
  assert (_validate_auth Examples.env_no_time st = (Returned tt, st)) as H2
    by (vm_compute; reflexivity).
  split; [exact H1 |]. split; [exact H2 |]. split; [reflexivity |].
  split; [reflexivity |].
  destruct (first_cycle_before_admission Examples.env_no_time 0 st H1 H2)
    as (evs & rest & _ & Htr & _ & _ & _ & Hfull & Hstore & _).
  split.
  - exact (proj1 (proj2
      (Hstore (CStr "rule_processor") Examples.log1
         [Examples.log2; Examples.log3] 170 false true
         eq_refl eq_refl eq_refl))).
  - exists rest. rewrite Htr.
    rewrite (Hfull (CStr "rule_processor") Examples.log1
               [Examples.log2; Examples.log3] 170 false true
               eq_refl eq_refl eq_refl).
    reflexivity.
Defined.

(** ** The throttle *)

(** C7 on the code: [_sleep] sleeps exactly when [_poll_count] is not zero,
    and [_poll_count] counts the cycles that delivered, not the iterations.
    When the first page is empty and announces more data, the second
    iteration fetches without any sleep in between. *)
Theorem no_sleep_after_empty_first_poll :
  (∀ (env : Env) (st : state),
     _sleep env st =
       (Returned tt,
        {| self := self st;
           trace := trace st ++
                    (if _poll_count (self st) =? 0 then []
                     else [EvSleep (_sleep_seconds env (self st))]) |}))
  ∧ (gather Examples.env_empty_then_more 3
       (Examples.fresh (Examples.config_with Examples.full_auth Idle))).1
    = Returned tt
  ∧ trace (gather Examples.env_empty_then_more 3
             (Examples.fresh (Examples.config_with Examples.full_auth Idle))).2
    = [EvMarkRunning; EvFetch 0; EvRemaining 60000;
       EvFetch 1; EvSend (CStr "rule_processor") [Examples.log1];
       EvSetLastTimestamp 150; EvRemaining 60000;
       EvMarkSuccess; EvSetLastTimestamp 150].
Proof.
  split; [intros env st; apply _sleep_eq |].
  split; vm_compute; reflexivity.
Qed.

(** After a cycle that delivered, the next iteration does sleep. *)
Example sleep_after_delivery :
  trace (gather Examples.env_two_pages 3
           (Examples.fresh (Examples.config_with Examples.full_auth Idle))).2
  = [EvMarkRunning; EvFetch 0; EvSend (CStr "rule_processor") [Examples.log1];
     EvSetLastTimestamp 150; EvRemaining 60000;
     EvSleep 5; EvFetch 1; EvSend (CStr "rule_processor") [Examples.log2];
     EvSetLastTimestamp 160; EvRemaining 60000;
     EvMarkSuccess; EvSetLastTimestamp 160].
Proof. vm_compute. reflexivity. Qed.

(** ** Rounding *)

Section Rounding.

Import PyNum.

Local Open Scope Q_scope.

Lemma round_half_even_bounds (x : Q) :
  x - (1 # 2) <= inject_Z (round_half_even x) /\
  inject_Z (round_half_even x) <= x + (1 # 2).
Proof.
  unfold round_half_even.
  pose proof (Qfloor_le x) as Hlo. pose proof (Qlt_floor x) as Hhi.
  rewrite inject_Z_plus in Hhi.
  change (inject_Z 1) with 1 in Hhi.
  destruct (Qcompare_spec (x - inject_Z (Qfloor x)) (1 # 2)) as [He | Hl | Hg].
  - destruct (Z.even (Qfloor x)); rewrite ?inject_Z_plus;
      change (inject_Z 1) with 1; lra.
  - lra.
  - rewrite inject_Z_plus. change (inject_Z 1) with 1. lra.
Qed.

Lemma round_scaled (x s : Q) :
  0 < s ->
  x - s * (1 # 2) <= inject_Z (round_half_even (x / s)) * s /\
  inject_Z (round_half_even (x / s)) * s <= x + s * (1 # 2).
Proof.
  intros Hs.
  destruct (round_half_even_bounds (x / s)) as [Hlo Hhi].
  assert (x / s * s == x) as Hx by (field; lra).
  split.
  - apply (Qmult_le_compat_r _ _ s) in Hlo; [| lra].
    rewrite <- Hx at 1. lra.
  - apply (Qmult_le_compat_r _ _ s) in Hhi; [| lra].
    rewrite <- Hx at 2. lra.
Qed.

Lemma pow2_pos (k : Z) : 0 < 2 ^ k.
Proof. apply Qpower_0_lt. lra. Qed.

Lemma pow10_pos (k : Z) : 0 < 10 ^ k.
Proof. apply Qpower_0_lt. lra. Qed.

Lemma Qlog2_floor_le (a : Q) : 0 < a -> 2 ^ Qlog2_floor a <= a.
Proof.
  intros Ha. unfold Qlog2_floor.
  destruct a as [n d]. simpl Qnum. simpl Qden.
  assert (0 < n)%Z as Hn by (unfold Qlt in Ha; simpl in Ha; lia).
  set (ln := Z.log2 n). set (ld := Z.log2 (Z.pos d)).
  destruct (Qle_bool (2 ^ (ln - ld)) (n # d)) eqn:Ht.
  - by apply Qle_bool_iff.
  - clear Ht.
    destruct (Z.log2_spec n Hn) as [Hn1 _].
    destruct (Z.log2_spec (Z.pos d) eq_refl) as [_ Hd2].
    fold ln in Hn1. fold ld in Hd2.
    assert (0 <= ln)%Z by apply Z.log2_nonneg.
    assert (0 <= ld)%Z by apply Z.log2_nonneg.
    rewrite (Qmake_Qdiv n d).
    apply Qle_shift_div_l; [unfold Qlt; simpl; lia |].
    replace (ln - ld - 1)%Z with (ln + - (ld + 1))%Z by lia.
    rewrite Qpower_plus by lra. rewrite Qpower_opp.
    assert (inject_Z (Z.pos d) <= 2 ^ (ld + 1)) as Hd.
    { change 2 with (inject_Z 2). rewrite <- Zpower_Qpower by lia.
      rewrite <- Zle_Qle. unfold Z.succ in Hd2. lia. }
    assert (2 ^ ln <= inject_Z n) as Hnq.
    { change 2 with (inject_Z 2). rewrite <- Zpower_Qpower by lia.
      by rewrite <- Zle_Qle. }
    pose proof (pow2_pos (ld + 1)) as Hp1. pose proof (pow2_pos ln) as Hp2.
    apply Qle_trans with (2 ^ ln * / 2 ^ (ld + 1) * 2 ^ (ld + 1)).
    + apply Qmult_le_l; [| exact Hd].
      apply Qmult_lt_0_compat; [done |]. by apply Qinv_lt_0_compat.
    + assert (2 ^ ln * / 2 ^ (ld + 1) * 2 ^ (ld + 1) == 2 ^ ln) as -> by (field; lra).
      done.
Qed.


Lemma Qabs_pos_eq (x : Q) : 0 < x -> Qabs x = x.
Proof.
  destruct x as [n d]. unfold Qlt. simpl. intros Hn.
  f_equal. apply Z.abs_eq. lia.
Qed.

Lemma Qeq_bool_pos (x : Q) : 0 < x -> Qeq_bool x 0 = false.
Proof.
  intros Hx. destruct (Qeq_bool x 0) eqn:He; [| done].
  apply Qeq_bool_iff in He. lra.
Qed.


Lemma b64_within (x : Q) :
  0 < x -> 2 ^ (-1022) <= x ->
  x * (1 - eps64) <= b64 x /\ b64 x <= x * (1 + eps64).
Proof.
  intros Hx Hnorm. unfold b64.
  rewrite (Qeq_bool_pos x Hx), Qred_correct, (Qabs_pos_eq x Hx).
  pose proof (Qlog2_floor_le x Hx) as He.
  set (e := Qlog2_floor x) in *.
  set (u := Z.max (e - 52) (-1074)).
  assert (2 ^ u <= x * (1 # 4503599627370496)) as Hs.
  { change (1 # 4503599627370496) with (2 ^ (-52)).
    unfold u. destruct (Z.max_spec (e - 52) (-1074)) as [[_ ->] | [_ ->]].
    - change (-1074)%Z with (-1022 + -52)%Z. rewrite Qpower_plus by lra.
      apply Qmult_le_compat_r; [done | apply Qlt_le_weak, pow2_pos].
    - replace (e - 52)%Z with (e + -52)%Z by lia. rewrite Qpower_plus by lra.
      apply Qmult_le_compat_r; [done | apply Qlt_le_weak, pow2_pos]. }
  pose proof (pow2_pos u) as Hu.
  destruct (round_scaled x (2 ^ u) Hu) as [Hlo Hhi].
  unfold eps64. split; lra.
Qed.

Lemma digits10_aux_spec (f : nat) (n : Z) :
  (1 <= n < 2 ^ Z.of_nat f)%Z ->
  (1 <= digits10_aux f n /\
   10 ^ (digits10_aux f n - 1) <= n < 10 ^ digits10_aux f n)%Z.
Proof.
  revert n. induction f as [|f IH]; intros n Hn.
  { simpl in Hn. lia. }
  simpl digits10_aux. destruct (Z.ltb_spec n 10) as [Hlt | Hge].
  { simpl. lia. }
  assert (1 <= n / 10 < 2 ^ Z.of_nat f)%Z as Hdiv.
  { split.
    - apply Z.div_le_lower_bound; lia.
    - apply Z.div_lt_upper_bound; [lia |].
      rewrite Nat2Z.inj_succ, Z.pow_succ_r in Hn by lia. lia. }
  destruct (IH _ Hdiv) as (Hk & Hlo & Hhi).
  set (k := digits10_aux f (n / 10)) in *.
  pose proof (Z.mul_div_le n 10 ltac:(lia)) as Hm1.
  pose proof (Z.mul_succ_div_gt n 10 ltac:(lia)) as Hm2.
  replace (1 + k - 1)%Z with (Z.succ (k - 1)) by lia.
  replace (1 + k)%Z with (Z.succ k) by lia.
  rewrite !Z.pow_succ_r by lia. lia.
Qed.

Lemma digits10_spec (n : Z) :
  (0 < n)%Z ->
  (1 <= digits10 n /\ 10 ^ (digits10 n - 1) <= n < 10 ^ digits10 n)%Z.
Proof.
  intros Hn. unfold digits10. apply digits10_aux_spec.
  destruct (Z.log2_spec n Hn) as [_ Hhi].
  pose proof (Z.log2_nonneg n).
  rewrite Nat2Z.inj_succ, Z2Nat.id by lia. lia.
Qed.

Lemma Qlog10_floor_le (a : Q) : 0 < a -> 10 ^ Qlog10_floor a <= a.
Proof.
  intros Ha. unfold Qlog10_floor.
  destruct a as [n d]. simpl Qnum. simpl Qden.
  assert (0 < n)%Z as Hn by (unfold Qlt in Ha; simpl in Ha; lia).
  set (dn := digits10 n). set (dd := digits10 (Z.pos d)).
  destruct (Qle_bool (10 ^ (dn - dd)) (n # d)) eqn:Ht.
  - by apply Qle_bool_iff.
  - clear Ht.
    destruct (digits10_spec n Hn) as (Hn0 & Hn1 & _).
    destruct (digits10_spec (Z.pos d) eq_refl) as (Hd0 & _ & Hd2).
    fold dn in Hn0, Hn1. fold dd in Hd0, Hd2.
    rewrite (Qmake_Qdiv n d).
    apply Qle_shift_div_l; [unfold Qlt; simpl; lia |].
    replace (dn - dd - 1)%Z with ((dn - 1) + - dd)%Z by lia.
    rewrite Qpower_plus by lra. rewrite Qpower_opp.
    assert (inject_Z (Z.pos d) <= 10 ^ dd) as Hd.
    { change 10 with (inject_Z 10). rewrite <- Zpower_Qpower by lia.
      rewrite <- Zle_Qle. lia. }
    assert (10 ^ (dn - 1) <= inject_Z n) as Hnq.
    { change 10 with (inject_Z 10). rewrite <- Zpower_Qpower by lia.
      by rewrite <- Zle_Qle. }
    pose proof (pow10_pos dd) as Hp1. pose proof (pow10_pos (dn - 1)) as Hp2.
    apply Qle_trans with (10 ^ (dn - 1) * / 10 ^ dd * 10 ^ dd).
    + apply Qmult_le_l; [| exact Hd].
      apply Qmult_lt_0_compat; [done |]. by apply Qinv_lt_0_compat.
    + assert (10 ^ (dn - 1) * / 10 ^ dd * 10 ^ dd == 10 ^ (dn - 1)) as ->
        by (field; lra).
      done.
Qed.

Lemma dec28_within (x : Q) :
  0 < x ->
  x * (1 - eps_dec) <= dec28 x /\ dec28 x <= x * (1 + eps_dec).
Proof.
  intros Hx. unfold dec28.
  rewrite (Qeq_bool_pos x Hx), Qred_correct, (Qabs_pos_eq x Hx).
  pose proof (Qlog10_floor_le x Hx) as He.
  set (e := Qlog10_floor x) in *.
  assert (10 ^ (e - 27) <= x * (1 # 1000000000000000000000000000)) as Hs.
  { change (1 # 1000000000000000000000000000) with (10 ^ (-27)).
    replace (e - 27)%Z with (e + -27)%Z by lia. rewrite Qpower_plus by lra.
    apply Qmult_le_compat_r; [done | apply Qlt_le_weak, pow10_pos]. }
  pose proof (pow10_pos (e - 27)) as Hu.
  destruct (round_scaled x (10 ^ (e - 27)) Hu) as [Hlo Hhi].
  unfold eps_dec. split; lra.
Qed.


Lemma Qlog2_floor_lt (a : Q) : 0 < a -> a < 2 ^ (Qlog2_floor a + 1).
Proof.
  intros Ha. unfold Qlog2_floor.
  destruct a as [n d]. simpl Qnum. simpl Qden.
  assert (0 < n)%Z as Hn by (unfold Qlt in Ha; simpl in Ha; lia).
  set (ln := Z.log2 n). set (ld := Z.log2 (Z.pos d)).
  destruct (Qle_bool (2 ^ (ln - ld)) (n # d)) eqn:Ht.
  - clear Ht.
    destruct (Z.log2_spec n Hn) as [_ Hn2].
    destruct (Z.log2_spec (Z.pos d) eq_refl) as [Hd1 _].
    fold ln in Hn2. fold ld in Hd1.
    assert (0 <= ln)%Z by apply Z.log2_nonneg.
    assert (0 <= ld)%Z by apply Z.log2_nonneg.
    rewrite (Qmake_Qdiv n d).
    apply Qlt_shift_div_r; [unfold Qlt; simpl; lia |].
    replace (ln - ld + 1)%Z with ((ln + 1) + - ld)%Z by lia.
    rewrite Qpower_plus by lra. rewrite Qpower_opp.
    assert (2 ^ ld <= inject_Z (Z.pos d)) as Hd.
    { change 2 with (inject_Z 2). rewrite <- Zpower_Qpower by lia.
      by rewrite <- Zle_Qle. }
    assert (inject_Z n < 2 ^ (ln + 1)) as Hnq.
    { change 2 with (inject_Z 2). rewrite <- Zpower_Qpower by lia.
      rewrite <- Zlt_Qlt. unfold Z.succ in Hn2. lia. }
    pose proof (pow2_pos ld) as Hp1. pose proof (pow2_pos (ln + 1)) as Hp2.
    apply Qlt_le_trans with (2 ^ (ln + 1) * / 2 ^ ld * 2 ^ ld).
    + assert (2 ^ (ln + 1) * / 2 ^ ld * 2 ^ ld == 2 ^ (ln + 1)) as ->
        by (field; lra).
      done.
    + apply Qmult_le_l; [| exact Hd].
      apply Qmult_lt_0_compat; [done |]. by apply Qinv_lt_0_compat.
  - replace (ln - ld - 1 + 1)%Z with (ln - ld)%Z by lia.
    apply Qnot_le_lt. intros Hle. apply Qle_bool_iff in Hle. congruence.
Qed.

(** For a positive argument the result of [b64] has a significand of at most
    53 bits and an exponent of at least -1074. *)
Lemma b64_representable (x : Q) :
  0 < x ->
  exists (m u : Z),
    b64 x == inject_Z m * 2 ^ u /\ (0 <= m <= 2 ^ 53)%Z /\ (-1074 <= u)%Z.
Proof.
  intros Hx. unfold b64.
  rewrite (Qeq_bool_pos x Hx), (Qabs_pos_eq x Hx).
  pose proof (Qlog2_floor_lt x Hx) as He.
  set (e := Qlog2_floor x) in *.
  set (u := Z.max (e - 52) (-1074)).
  exists (round_half_even (x / 2 ^ u)), u.
  split; [apply Qred_correct |]. split; [| lia].
  pose proof (pow2_pos u) as Hu.
  assert (0 < x / 2 ^ u) as Hy.
  { apply Qlt_shift_div_l; [done | lra]. }
  assert (x / 2 ^ u < 2 ^ 53) as Hy2.
  { apply Qlt_shift_div_r; [done |].
    eapply Qlt_le_trans; [exact He |].
    rewrite <- Qpower_plus by lra.
    apply Qpower_le_compat_l; [lia | lra]. }
  set (y := x / 2 ^ u) in *.
  pose proof (Qfloor_le y) as Hf1. pose proof (Qlt_floor y) as Hf2.
  assert (0 <= Qfloor y < 2 ^ 53)%Z as Hf.
  { split.
    - apply Z.lt_succ_r. rewrite Zlt_Qlt. unfold Z.succ.
      change (inject_Z 0) with 0. lra.
    - rewrite Zlt_Qlt. change (inject_Z (2 ^ 53)) with (2 ^ 53). lra. }
  unfold round_half_even. fold y.
  destruct (Qcompare _ _); [destruct (Z.even _) |..]; lia.
Qed.


Lemma Qlog10_floor_lt (a : Q) : 0 < a -> a < 10 ^ (Qlog10_floor a + 1).
Proof.
  intros Ha. unfold Qlog10_floor.
  destruct a as [n d]. simpl Qnum. simpl Qden.
  assert (0 < n)%Z as Hn by (unfold Qlt in Ha; simpl in Ha; lia).
  set (dn := digits10 n). set (dd := digits10 (Z.pos d)).
  destruct (Qle_bool (10 ^ (dn - dd)) (n # d)) eqn:Ht.
  - clear Ht.
    destruct (digits10_spec n Hn) as (Hn0 & _ & Hn2).
    destruct (digits10_spec (Z.pos d) eq_refl) as (Hd0 & Hd1 & _).
    fold dn in Hn0, Hn2. fold dd in Hd0, Hd1.
    rewrite (Qmake_Qdiv n d).
    apply Qlt_shift_div_r; [unfold Qlt; simpl; lia |].
    replace (dn - dd + 1)%Z with (dn + - (dd - 1))%Z by lia.
    rewrite Qpower_plus by lra. rewrite Qpower_opp.
    assert (10 ^ (dd - 1) <= inject_Z (Z.pos d)) as Hd.
    { change 10 with (inject_Z 10). rewrite <- Zpower_Qpower by lia.
      by rewrite <- Zle_Qle. }
    assert (inject_Z n < 10 ^ dn) as Hnq.
    { change 10 with (inject_Z 10). rewrite <- Zpower_Qpower by lia.
      by rewrite <- Zlt_Qlt. }
    pose proof (pow10_pos (dd - 1)) as Hp1. pose proof (pow10_pos dn) as Hp2.
    apply Qlt_le_trans with (10 ^ dn * / 10 ^ (dd - 1) * 10 ^ (dd - 1)).
    + assert (10 ^ dn * / 10 ^ (dd - 1) * 10 ^ (dd - 1) == 10 ^ dn) as ->
        by (field; lra).
      done.
    + apply Qmult_le_l; [| exact Hd].
      apply Qmult_lt_0_compat; [done |]. by apply Qinv_lt_0_compat.
  - replace (dn - dd - 1 + 1)%Z with (dn - dd)%Z by lia.
    apply Qnot_le_lt. intros Hle. apply Qle_bool_iff in Hle. congruence.
Qed.

(** For a positive argument the result of [dec28] has a coefficient of at
    most 28 digits. *)
Lemma dec28_representable (x : Q) :
  0 < x ->
  exists (m u : Z), dec28 x == inject_Z m * 10 ^ u /\ (0 <= m <= 10 ^ 28)%Z.
Proof.
  intros Hx. unfold dec28.
  rewrite (Qeq_bool_pos x Hx), (Qabs_pos_eq x Hx).
  pose proof (Qlog10_floor_lt x Hx) as He.
  set (e := Qlog10_floor x) in *.
  exists (round_half_even (x / 10 ^ (e - 27))), (e - 27)%Z.
  split; [apply Qred_correct |].
  pose proof (pow10_pos (e - 27)) as Hu.
  assert (0 < x / 10 ^ (e - 27)) as Hy.
  { apply Qlt_shift_div_l; [done | lra]. }
  assert (x / 10 ^ (e - 27) < 10 ^ 28) as Hy2.
  { apply Qlt_shift_div_r; [done |].
    eapply Qlt_le_trans; [exact He |].
    rewrite <- Qpower_plus by lra.
    apply Qpower_le_compat_l; [lia | lra]. }
  set (y := x / 10 ^ (e - 27)) in *.
  pose proof (Qfloor_le y) as Hf1. pose proof (Qlt_floor y) as Hf2.
  assert (0 <= Qfloor y < 10 ^ 28)%Z as Hf.
  { split.
    - apply Z.lt_succ_r. rewrite Zlt_Qlt. unfold Z.succ.
      change (inject_Z 0) with 0. lra.
    - rewrite Zlt_Qlt. change (inject_Z (10 ^ 28)) with (10 ^ 28). lra. }
  unfold round_half_even. fold y.
  destruct (Qcompare _ _); [destruct (Z.even _) |..]; lia.
Qed.

Lemma b64_within0 (x : Q) :
  x == 0 \/ 2 ^ (-1022) <= x ->
  x * (1 - eps64) <= b64 x /\ b64 x <= x * (1 + eps64).
Proof.
  intros [Hz | Hn].
  - unfold b64. rewrite (proj2 (Qeq_bool_iff x 0) Hz). rewrite Hz. split; lra.
  - apply b64_within; [| done].
    eapply Qlt_le_trans; [apply (pow2_pos (-1022)) | done].
Qed.

Lemma dec28_within0 (x : Q) :
  0 <= x ->
  x * (1 - eps_dec) <= dec28 x /\ dec28 x <= x * (1 + eps_dec).
Proof.
  intros Hx. destruct (Qeq_bool x 0) eqn:Hz.
  - unfold dec28. rewrite Hz. apply Qeq_bool_iff in Hz. rewrite Hz. split; lra.
  - apply dec28_within.
    destruct (Qle_lt_or_eq _ _ Hx) as [? | He]; [done |].
    symmetry in He. apply Qeq_bool_iff in He. congruence.
Qed.

Lemma tiny_normal : 2 ^ (-1022) <= 1 # 10000000000.
Proof. by apply Qle_bool_iff. Qed.

Lemma multiplier_value :
  _POLL_BUFFER_MULTIPLIER = 5404319552844595 # 4503599627370496.
Proof. vm_compute. reflexivity. Qed.

Lemma projected_cost_within (d : Q) (t : N) :
  d == 0 \/ (1 # 1000000000) <= d ->
  let exact := d * (12 # 10) + inject_Z (Z.of_N t) in
  exact * (1 - eps_cost) <= projected_cost (buffered d) t
  /\ projected_cost (buffered d) t <= exact * (1 + eps_cost).
Proof.
  intros Hd exact. unfold exact. clear exact.
  unfold projected_cost, buffered, float_add, float_of_int, float_of_decimal,
    decimal_mul, Decimal.
  rewrite multiplier_value.
  set (c := 5404319552844595 # 4503599627370496).
  set (T := inject_Z (Z.of_N t)).
  assert (0 <= d) as Hd0 by (destruct Hd; lra).
  assert (T == 0 \/ 1 <= T) as HT.
  { unfold T. destruct t as [|p]; [left; reflexivity | right].
    change 1 with (inject_Z 1). rewrite <- Zle_Qle. lia. }
  assert (0 <= d * c) as Hx1 by (unfold c; lra).
  destruct (dec28_within0 (d * c) Hx1) as [Hp1 Hp2].
  set (p := dec28 (d * c)) in *.
  pose proof tiny_normal as Htiny.
  assert (p == 0 \/ 2 ^ (-1022) <= p) as Hp.
  { destruct Hd as [Hz | Hn].
    - left. unfold p, dec28.
      assert (d * c == 0) as Hz' by (rewrite Hz; lra).
      by rewrite (proj2 (Qeq_bool_iff _ _) Hz').
    - right. unfold eps_dec, c in *. lra. }
  destruct (b64_within0 p Hp) as [Hq1 Hq2].
  set (q := b64 p) in *.
  assert (T == 0 \/ 2 ^ (-1022) <= T) as HT'.
  { destruct HT; [by left | right; lra]. }
  destruct (b64_within0 T HT') as [Hs1 Hs2].
  set (s := b64 T) in *.
  unfold eps64, eps_dec, c in *.
  assert (q + s == 0 \/ 2 ^ (-1022) <= q + s) as Hqs.
  { destruct Hd as [Hz | Hn]; destruct HT as [HTz | HTn].
    - left. rewrite Hz in *. lra.
    - right. rewrite Hz in *. lra.
    - right. lra.
    - right. lra. }
  destruct (b64_within0 (q + s) Hqs) as [Hr1 Hr2].
  set (r := b64 (q + s)) in *.
  unfold eps64, eps_cost in *.
  assert (0 <= T) by (destruct HT; lra).
  split; lra.
Qed.

End Rounding.

(** ** Admission control *)

(** The rounding model at a well-known value: [0.1 + 0.2] is not [0.3]. *)
Example float_add_tenths :
  PyNum.float_add (PyNum.float_lit (1 # 10)) (PyNum.float_lit (2 # 10))
  = (1351079888211149 # 4503599627370496)%Q
  ∧ PyNum.float_lit (3 # 10) = (5404319552844595 # 18014398509481984)%Q.
Proof. vm_compute. done. Qed.

(** C3. The value the loop compares with the remaining time is the measured
    duration times 1.2 plus the throttle interval, computed as the code does
    (a [Decimal] product, converted to a float, plus an [int]): for a
    duration that is zero or at least a nanosecond it is [d * 1.2 + t] up to
    a relative rounding error of [2^-50].  For [d = 0.01] and [t = 5] it is
    the float [5.012], which is not below the five seconds that 5000 ms
    are.  And whenever the value of a completed cycle is not below the
    remaining time, the loop returns right after that comparison: no further
    cycle is started. *)
Theorem admission_estimator :
  (∀ (d : Q) (t : N),
     (d == 0 ∨ (1 # 1000000000) <= d)%Q →
     ((d * (12 # 10) + inject_Z (Z.of_N t)) * (1 - eps_cost)
        <= projected_cost (buffered d) t
      ∧ projected_cost (buffered d) t
        <= (d * (12 # 10) + inject_Z (Z.of_N t)) * (1 + eps_cost))%Q)
  ∧ projected_cost (buffered (PyNum.float_lit (1 # 100))) 5
    = PyNum.float_lit (5012 # 1000)
  ∧ admits (projected_cost (buffered (PyNum.float_lit (1 # 100))) 5) 5000
    = false
  ∧ (∀ (env : Env) (fuel i : nat) (st st1 : state) (g : PyNum.float),
       _gather env i st = (Returned g, st1) →
       g = buffered (PyNum.float_lit (elapsed env i))
       ∧ (admits (projected_cost g (_sleep_seconds env (self st1)))
                 (remaining_ms env i) = false →
          gather_loop env (S fuel) i st
          = (Returned tt,
             {| self := self st1;
                trace := trace st1 ++ [EvRemaining (remaining_ms env i)] |}))).
Proof.
  split; [exact projected_cost_within |].
  split; [vm_compute; reflexivity |].
  split; [vm_compute; reflexivity |].
  intros env fuel i st st1 g Hg. split.
  - by destruct (_gather_returned env i st st1 g Hg) as [-> _].
  - intros Hadm. rewrite gather_loop_eq, Hg. simpl. by rewrite Hadm.
Qed.

(** Every page announces more data, a cycle takes 0.01 s, the throttle is
    5 s and 5000 ms are left: the loop ends after the first cycle. *)
Lemma admission_estimator_witness :
  let st := started (Examples.fresh (Examples.config_with Examples.full_auth Idle)) in
  let r := _gather Examples.env_always_more 0 st in
  r.1 = Returned (buffered (PyNum.float_lit (1 # 100)))
  ∧ _more_to_poll (self r.2) = true
  ∧ admits (projected_cost (buffered (PyNum.float_lit (1 # 100)))
              (_sleep_seconds Examples.env_always_more (self r.2)))
           (remaining_ms Examples.env_always_more 0) = false
  ∧ gather_loop Examples.env_always_more 3 0 st
    = (Returned tt,
       {| self := self r.2; trace := trace r.2 ++ [EvRemaining 5000] |}).
Proof.
  intros st r.
  assert (_gather Examples.env_always_more 0 st
          = (Returned (buffered (PyNum.float_lit (1 # 100))), r.2)) as Hg
    by (vm_compute; reflexivity).
  assert (admits (projected_cost (buffered (PyNum.float_lit (1 # 100)))
                    (_sleep_seconds Examples.env_always_more (self r.2)))
                 (remaining_ms Examples.env_always_more 0) = false) as Hadm
    by (vm_compute; reflexivity).
  split; [vm_compute; reflexivity |]. split; [vm_compute; reflexivity |].
  split; [exact Hadm |].
  destruct admission_estimator as (_ & _ & _ & Hstop).
  destruct (Hstop Examples.env_always_more 2%nat 0%nat st r.2 _ Hg) as [_ Hloop].
  exact (Hloop Hadm).
Defined.

(** The same run as a whole: one fetch, then the finalization. *)
Example gather_always_more :
  trace (gather Examples.env_always_more 3
           (Examples.fresh (Examples.config_with Examples.full_auth Idle))).2
  = [EvMarkRunning; EvFetch 0; EvSend (CStr "rule_processor") [Examples.log1];
     EvSetLastTimestamp 150; EvRemaining 5000;
     EvMarkSuccess; EvSetLastTimestamp 150].
Proof. vm_compute. reflexivity. Qed.

(** The scenario of the spec: three records, no more data. *)
Example gather_three_records :
  let r := gather Examples.env_ok 3
             (Examples.fresh (Examples.config_with Examples.full_auth Idle)) in
  r.1 = Returned tt
  ∧ _poll_count (self r.2) = 1
  ∧ _gathered_log_count (self r.2) = 3
  ∧ current_state (_config (self r.2)) = Succeeded
  ∧ last_timestamp (_config (self r.2)) = 170.
Proof. vm_compute. done. Qed.

(** * Further properties of the lifecycle *)

Section Lifecycle.

Variable env : Env.

(** A property [P] that every returning step of the loop keeps holds when
    the loop returns; if a cycle raises from a state with [P], [Q] holds. *)
Lemma gather_loop_invariant2 (P Q : state → Prop) :
  (∀ i st, P st →
     match _gather env i st with
     | (Returned _, s1) => P s1
     | (Raised _, s1) => Q s1
     | (OutOfFuel, _) => True
     end) →
  (∀ ms st, P st →
     P {| self := self st; trace := trace st ++ [EvRemaining ms] |}) →
  (∀ st, P st →
     P {| self := with_more_to_poll false (self st); trace := trace st |}) →
  ∀ fuel i st, P st →
    match gather_loop env fuel i st with
    | (Returned _, s') => P s'
    | (Raised _, s') => Q s'
    | (OutOfFuel, s') => P s'
    end.
Proof.
  intros Hcycle Hrem Hflag fuel.
  induction fuel as [|fuel IH]; intros i st HP; [by rewrite gather_loop_zero |].
  rewrite gather_loop_eq.
  specialize (Hcycle i st HP).
  pose proof (_gather_fuel env i st) as Hfuel.
  destruct (_gather env i st) as [[g| |] st1]; simpl in *; try done.
  specialize (Hrem (remaining_ms env i) st1 Hcycle).
  destruct (admits _ _); [| done].
  destruct (_more_to_poll (self st1)); [| done].
  apply IH. apply (Hflag _ Hrem).
Qed.

Lemma replay_app (a b : list event) (c : AppConfig) :
  replay (a ++ b) c = replay b (replay a c).
Proof. apply foldl_app. Qed.

Lemma replay_sleep_events (app : AppIntegration) (c : AppConfig) :
  replay (sleep_events env app) c = c.
Proof. unfold sleep_events. by destruct (_poll_count app =? 0). Qed.

Lemma replay_frame (evs : list event) (c : AppConfig) :
  cfg_items (replay evs c) = cfg_items c
  ∧ start_last_timestamp (replay evs c) = start_last_timestamp c.
Proof.
  revert c. induction evs as [|e evs IH]; intros c; [done |].
  change (replay (e :: evs) c) with (replay evs (replay_event c e)).
  destruct (IH (replay_event c e)) as [-> ->]. by destruct e.
Qed.

(** What one cycle does to the stored configuration is what its events
    say. *)
Lemma _gather_replay (i : nat) (st : state) :
  ∃ evs, trace (_gather env i st).2 = trace st ++ evs
         ∧ _config (self (_gather env i st).2) = replay evs (_config (self st)).
Proof.
  rewrite _gather_eq. unfold cycle_outcome.
  destruct (_gather_logs env i (self st)) as [[|l ls] ts more|e]; simpl.
  - eexists. split; [done |]. by rewrite replay_app, replay_sleep_events.
  - destruct (cfg_items (_config (self st)) !! "function_name") as [dest|]; simpl.
    + destruct (send_logs env i dest (l :: ls)); simpl;
        (eexists; split; [done |]; by rewrite replay_app, replay_sleep_events).
    + eexists. split; [done |]. by rewrite replay_app, replay_sleep_events.
  - eexists. split; [done |]. by rewrite replay_app, replay_sleep_events.
Qed.

Lemma gather_loop_replay (fuel i : nat) (st : state) :
  ∃ evs, trace (gather_loop env fuel i st).2 = trace st ++ evs
         ∧ _config (self (gather_loop env fuel i st).2)
           = replay evs (_config (self st)).
Proof.
  apply (gather_loop_invariant env
           (λ s, ∃ evs, trace s = trace st ++ evs
                        ∧ _config (self s) = replay evs (_config (self st)))).
  - intros j s (evs & Htr & Hc).
    destruct (_gather_replay j s) as (evs' & Htr' & Hc').
    exists (evs ++ evs'). rewrite Htr', Htr, app_assoc, Hc', Hc, replay_app. done.
  - intros ms s (evs & Htr & Hc). simpl.
    exists (evs ++ [EvRemaining ms]). rewrite Htr, app_assoc, Hc, replay_app. done.
  - intros s (evs & Htr & Hc). by exists evs.
  - exists []. by rewrite app_nil_r.
Qed.

Lemma gather_replay (fuel : nat) (st : state) :
  ∃ evs, trace (gather env fuel st).2 = trace st ++ evs
         ∧ _config (self (gather env fuel st).2) = replay evs (_config (self st)).
Proof.
  rewrite gather_eq.
  destruct (is_running (_config (self st)));
    [exists []; by rewrite app_nil_r |].
  destruct (_validate_auth_frame env st) as [-> | [args ->]];
    [| exists []; by rewrite app_nil_r].
  destruct (gather_loop_replay fuel 0 (started st)) as (evs & Htr & Hc).
  destruct (gather_loop env fuel 0 (started st)) as [[[]| |] st2]; simpl in *.
  - exists (EvMarkRunning :: evs
            ++ [EvMarkSuccess; EvSetLastTimestamp (_last_timestamp (self st2))]).
    rewrite Htr, Hc, <- !app_assoc. split; [done |].
    change (EvMarkRunning :: evs ++ ?l) with ([EvMarkRunning] ++ evs ++ l).
    by rewrite !replay_app.
  - exists (EvMarkRunning :: evs). rewrite Htr, Hc, <- app_assoc. split; [done |].
    change (EvMarkRunning :: evs) with ([EvMarkRunning] ++ evs).
    by rewrite replay_app.
  - exists (EvMarkRunning :: evs). rewrite Htr, Hc, <- app_assoc. split; [done |].
    change (EvMarkRunning :: evs) with ([EvMarkRunning] ++ evs).
    by rewrite replay_app.
Qed.

End Lifecycle.


(** ** Counters *)

Section Counters.

Variable env : Env.

Lemma sends_app (a b : list event) : sends (a ++ b) = sends a ++ sends b.
Proof.
  induction a as [|e a IH]; [done |]. destruct e; simpl; by rewrite ?IH.
Qed.

Lemma sends_sleep_events (app : AppIntegration) : sends (sleep_events env app) = [].
Proof. unfold sleep_events. by destruct (_poll_count app =? 0). Qed.

Lemma records_in_app (a b : list (list Log)) :
  records_in (a ++ b) = records_in a + records_in b.
Proof.
  unfold records_in. induction a as [|x a IH]; simpl; [done |]. rewrite IH. lia.
Qed.

Lemma records_in_nonneg (a : list (list Log)) : 0 <= records_in a.
Proof. unfold records_in. induction a as [|x a IH]; simpl; lia. Qed.

Lemma counted_weaken (st0 s : state) : counted st0 s → counted_upto st0 s.
Proof. intros (evs & Htr & Hp & Hg). exists evs. split_and!; [done | lia..]. Qed.

Lemma _gather_counted (st0 : state) (i : nat) (st : state) :
  counted st0 st →
  match _gather env i st with
  | (Returned _, s1) => counted st0 s1
  | (Raised _, s1) => counted_upto st0 s1
  | (OutOfFuel, _) => True
  end.
Proof.
  intros (evs & Htr & Hp & Hg). rewrite _gather_eq. unfold cycle_outcome.
  destruct (_gather_logs env i (self st)) as [[|l ls] ts more|e]; simpl.
  - exists (evs ++ sleep_events env (self st) ++ [EvFetch i]).
    rewrite Htr, <- app_assoc, !sends_app, sends_sleep_events. simpl.
    rewrite app_nil_r. done.
  - destruct (cfg_items (_config (self st)) !! "function_name") as [dest|]; simpl.
    + destruct (send_logs env i dest (l :: ls)); simpl.
      * exists (evs ++ sleep_events env (self st)
                ++ [EvFetch i; EvSend dest (l :: ls); EvSetLastTimestamp ts]).
        rewrite Htr, <- app_assoc, !sends_app, sends_sleep_events. simpl.
        split_and!; [done | ..];
          rewrite ?length_app, ?records_in_app; unfold records_in in *;
          simpl in *; lia.
      * exists (evs ++ sleep_events env (self st)
                ++ [EvFetch i; EvSend dest (l :: ls)]).
        rewrite Htr, <- app_assoc, !sends_app, sends_sleep_events. simpl.
        split_and!; [done | ..];
          rewrite ?length_app, ?records_in_app; unfold records_in in *;
          simpl in *; lia.
    + exists (evs ++ sleep_events env (self st) ++ [EvFetch i]).
      rewrite Htr, <- app_assoc, !sends_app, sends_sleep_events. simpl.
      rewrite app_nil_r. split_and!; [done | lia..].
  - exists (evs ++ sleep_events env (self st) ++ [EvFetch i]).
    rewrite Htr, <- app_assoc, !sends_app, sends_sleep_events. simpl.
    rewrite app_nil_r. split_and!; [done | lia..].
Qed.

Lemma gather_loop_counted (fuel i : nat) (st : state) :
  match gather_loop env fuel i st with
  | (Raised _, s') => counted_upto st s'
  | (_, s') => counted st s'
  end.
Proof.
  pose proof (gather_loop_invariant2 env (counted st) (counted_upto st)) as H.
  specialize (H (_gather_counted st)).
  assert (counted st st) as H0.
  { exists []. rewrite app_nil_r. simpl. unfold records_in. simpl.
    split_and!; [done | lia..]. }
  specialize (H) with (fuel := fuel) (i := i) (st := st).
  destruct (gather_loop env fuel i st) as [[[]| |] s']; apply H; try done.
  all: intros ms s (evs & Htr & Hp & Hg); exists (evs ++ [EvRemaining ms]);
    simpl; rewrite Htr, app_assoc, sends_app; simpl; by rewrite app_nil_r.
Qed.

Lemma gather_counted (fuel : nat) (st : state) :
  match gather env fuel st with
  | (Raised _, s') => counted_upto st s'
  | (_, s') => counted st s'
  end.
Proof.
  assert (counted st st) as H0.
  { exists []. rewrite app_nil_r. simpl. unfold records_in. simpl.
    split_and!; [done | lia..]. }
  rewrite gather_eq.
  destruct (is_running (_config (self st))); [done |].
  destruct (_validate_auth_frame env st) as [-> | [args ->]];
    [| by apply counted_weaken].
  pose proof (gather_loop_counted fuel 0 (started st)) as H.
  destruct (gather_loop env fuel 0 (started st)) as [[[]| |] st2]; simpl in *.
  - destruct H as (evs & Htr & Hp & Hg).
    exists (EvMarkRunning :: evs
            ++ [EvMarkSuccess; EvSetLastTimestamp (_last_timestamp (self st2))]).
    simpl. rewrite Htr, sends_app. simpl. rewrite app_nil_r.
    split; [unfold started; simpl; by rewrite <- ?app_assoc | done].
  - destruct H as (evs & Htr & Hp1 & Hp2 & Hg).
    exists (EvMarkRunning :: evs). simpl. rewrite Htr.
    split; [unfold started; simpl; by rewrite <- ?app_assoc | done].
  - destruct H as (evs & Htr & Hp & Hg).
    exists (EvMarkRunning :: evs). simpl. rewrite Htr.
    split; [unfold started; simpl; by rewrite <- ?app_assoc | done].
Qed.

End Counters.

(** X2. The counters of the instance agree with what was handed to the sink.
    When a run does not raise, [_poll_count] has grown by the number of
    batches sent and [_gathered_log_count] by the number of records in them.
    When it raises, [_poll_count] may lack the one batch whose send raised,
    and [_gathered_log_count] is at least the number of records sent: records
    are counted before they are sent. *)
Theorem counters_match_sends (env : Env) (fuel : nat) (st : state) :
  ∃ evs,
    trace (gather env fuel st).2 = trace st ++ evs
    ∧ match (gather env fuel st).1 with
      | Raised _ =>
          _poll_count (self (gather env fuel st).2)
            <= _poll_count (self st) + Z.of_nat (length (sends evs))
          ∧ _poll_count (self st) + Z.of_nat (length (sends evs))
            <= _poll_count (self (gather env fuel st).2) + 1
          ∧ _gathered_log_count (self st) + records_in (sends evs)
            <= _gathered_log_count (self (gather env fuel st).2)
      | _ =>
          _poll_count (self (gather env fuel st).2)
            = _poll_count (self st) + Z.of_nat (length (sends evs))
          ∧ _gathered_log_count (self (gather env fuel st).2)
            = _gathered_log_count (self st) + records_in (sends evs)
      end.
Proof.
  pose proof (gather_counted env fuel st) as H.
  destruct (gather env fuel st) as [[[]| |] s']; simpl;
    destruct H as (evs & Htr & H); exists evs; done.
Qed.

(** ** Runs one after the other *)

Section Runs.

Variable env : Env.

(** The outcome of validation depends on the items of the configuration
    only. *)
Lemma _validate_auth_items (st st' : state) :
  cfg_items (_config (self st)) = cfg_items (_config (self st')) →
  _validate_auth env st = (Returned tt, st) →
  _validate_auth env st' = (Returned tt, st').
Proof.
  unfold _validate_auth, bind, get_self, ret, raise. intros <-.
  destruct (Nat.eqb _ 0); [discriminate |].
  destruct (cfg_items (_config (self st)) !! "auth"); [| discriminate].
  by destruct (bool_decide _).
Qed.

(** The trace of a run that starts extends the trace of its first cycle. *)
Lemma gather_extends_first_cycle (fuel : nat) (st : state) :
  current_state (_config (self st)) ≠ Running →
  _validate_auth env st = (Returned tt, st) →
  ∃ rest,
    trace (gather env (S fuel) st).2
    = trace (_gather env 0 (started st)).2 ++ rest.
Proof.
  intros Hrun Hval. rewrite gather_eq. unfold is_running.
  rewrite bool_decide_eq_false_2 by done. rewrite Hval, gather_loop_eq.
  destruct (_gather env 0 (started st)) as [[g| |] st1]; simpl;
    [| exists []; by rewrite app_nil_r..].
  destruct (admits _ _);
    [| eexists; simpl; by rewrite <- app_assoc].
  destruct (_more_to_poll (self st1));
    [| eexists; simpl; by rewrite <- app_assoc].
  destruct (gather_loop_trace env fuel 1
              {| self := with_more_to_poll false (self st1);
                 trace := trace st1 ++ [EvRemaining (remaining_ms env 0)] |})
    as (evs & Htr & _).
  destruct (gather_loop env fuel 1 _) as [[[]| |] st3]; simpl in *;
    rewrite Htr; eexists; by rewrite <- !app_assoc.
Qed.

(** A run that starts begins with the status write, the sleep of the first
    cycle if the instance has polled before, and the first fetch. *)
Lemma gather_head (fuel : nat) (st : state) :
  current_state (_config (self st)) ≠ Running →
  _validate_auth env st = (Returned tt, st) →
  ∃ rest,
    trace (gather env (S fuel) st).2
    = trace st ++ EvMarkRunning
        :: sleep_events env (self (started st)) ++ EvFetch 0 :: rest.
Proof.
  intros Hrun Hval.
  destruct (gather_extends_first_cycle fuel st Hrun Hval) as (rest & ->).
  rewrite _gather_eq.
  assert (∃ tl, (cycle_outcome env 0 (self (started st))).2 = EvFetch 0 :: tl)
    as (tl & Htl).
  { unfold cycle_outcome.
    destruct (_gather_logs env 0 (self (started st))) as [[|l ls] ts more|e];
      simpl; eauto.
    destruct (cfg_items _ !! "function_name") as [dest|]; simpl; eauto.
    destruct (send_logs env 0 dest (l :: ls)); simpl; eauto. }
  destruct (cycle_outcome env 0 (self (started st))) as [[r app1] evs].
  simpl in *. subst evs. exists (tl ++ rest).
  rewrite <- !app_assoc. done.
Qed.

End Runs.

(** X3. A run that is stopped by an error in one of its iterations leaves
    the stored status RUNNING, and from then on every call of [gather] on
    that job, with whatever collaborators, returns at once and changes
    nothing: the guard takes the aborted run for one in progress. *)
Theorem raised_run_blocks_later_runs
  (env : Env) (fuel : nat) (st st' : state) (e : exn) :
  current_state (_config (self st)) ≠ Running →
  _validate_auth env st = (Returned tt, st) →
  gather env fuel st = (Raised e, st') →
  current_state (_config (self st')) = Running
  ∧ ∀ (env' : Env) (fuel' : nat), gather env' fuel' st' = (Returned tt, st').
Proof.
  intros Hrun Hval. rewrite gather_eq. unfold is_running.
  rewrite bool_decide_eq_false_2 by done. rewrite Hval.
  pose proof (gather_loop_status env fuel 0 (started st)) as Hst.
  destruct (gather_loop env fuel 0 (started st)) as [[[]| |] st2];
    [discriminate | | discriminate].
  intros [= <- <-]. simpl in Hst.
  split; [done |]. intros env' fuel'. rewrite gather_eq. unfold is_running.
  by rewrite bool_decide_eq_true_2.
Qed.

Lemma raised_run_blocks_later_runs_witness :
  let st := Examples.fresh (Examples.config_with Examples.full_auth Idle) in
  let r := gather Examples.env_send_raises 3 st in
  r.1 = Raised (OtherError ["ClientError"])
  ∧ current_state (_config (self r.2)) = Running
  ∧ gather Examples.env_ok 3 r.2 = (Returned tt, r.2).
Proof.
  intros st r.
  assert (current_state (_config (self st)) ≠ Running) as H1 by (by intros ?).
  assert (_validate_auth Examples.env_send_raises st = (Returned tt, st)) as H2
    by (vm_compute; reflexivity).
  assert (gather Examples.env_send_raises 3 st
          = (Raised (OtherError ["ClientError"]), r.2)) as H3
    by (vm_compute; reflexivity).
  destruct (raised_run_blocks_later_runs Examples.env_send_raises 3 st r.2 _
              H1 H2 H3) as [Hs Hblock].
  split; [vm_compute; reflexivity |]. split; [exact Hs |].
  exact (Hblock Examples.env_ok 3%nat).
Defined.

(** X4. The poll counter outlives the run.  When a run on an instance that
    has a non-negative poll count returns after gathering records, a second
    run on the same instance is not stopped by the guard, and its first
    iteration sleeps before it fetches: [_poll_count] is not reset. *)
Theorem second_run_sleeps_first
  (env : Env) (fuel fuel' : nat) (st st1 : state) :
  0 <= _poll_count (self st) →
  gather env fuel st = (Returned tt, st1) →
  _gathered_log_count (self st) < _gathered_log_count (self st1) →
  ∃ rest,
    trace (gather env (S fuel') st1).2
    = trace st1 ++ EvMarkRunning
        :: EvSleep (_sleep_seconds env (self (started st1)))
        :: EvFetch 0 :: rest.
Proof.
  intros Hp0 Hg Hmore.
  pose proof (gather_counted env fuel st) as Hc.
  pose proof (gather_replay env fuel st) as (evs' & _ & Hcfg).
  pose proof (replay_frame evs' (_config (self st))) as [Hitems _].
  rewrite <- Hcfg in Hitems. clear Hcfg evs'.
  rewrite Hg in Hc, Hitems. simpl in Hc, Hitems.
  destruct Hc as (evs & _ & Hpoll & Hcount).
  assert (_poll_count (self st1) ≠ 0) as Hne.
  { destruct (sends evs) as [|b bs]; [unfold records_in in Hcount; simpl in *; lia |].
    simpl in Hpoll. lia. }
  assert (current_state (_config (self st1)) ≠ Running
          ∧ _validate_auth env st = (Returned tt, st)) as [Hrun Hval].
  { rewrite gather_eq in Hg.
    destruct (is_running (_config (self st))); [injection Hg as <-; lia |].
    destruct (_validate_auth_frame env st) as [Hv | [args Hv]];
      rewrite Hv in Hg; [| discriminate].
    split; [| done].
    destruct (gather_loop env fuel 0 (started st)) as [[[]| |] st2];
      [| discriminate | discriminate].
    injection Hg as <-. by intros ?. }
  assert (_validate_auth env st1 = (Returned tt, st1)) as Hval1
    by (by apply (_validate_auth_items env st st1)).
  destruct (gather_head env fuel' st1 Hrun Hval1) as (rest & ->).
  exists rest. unfold sleep_events.
  assert (_poll_count (self (started st1)) = _poll_count (self st1)) as ->
    by done.
  destruct (Z.eqb_spec (_poll_count (self st1)) 0); [done |]. done.
Qed.

Lemma second_run_sleeps_first_witness :
  let st := Examples.fresh (Examples.config_with Examples.full_auth Idle) in
  let st1 := (gather Examples.env_ok 3 st).2 in
  gather Examples.env_ok 3 st = (Returned tt, st1)
  ∧ ∃ rest,
      trace (gather Examples.env_ok 1 st1).2
      = trace st1 ++ EvMarkRunning :: EvSleep 5 :: EvFetch 0 :: rest.
Proof.
  intros st st1.
  assert (gather Examples.env_ok 3 st = (Returned tt, st1)) as Hg
    by (vm_compute; reflexivity).
  split; [exact Hg |].
  apply (second_run_sleeps_first Examples.env_ok 3 0 st st1);
    [vm_compute; discriminate | exact Hg | vm_compute; reflexivity].
Defined.

(** ** A missing destination *)

(** X5. The item [function_name] is read only when records came back.
    Without it, a first fetch that brings records makes the run raise
    [KeyError]: the records have been counted, nothing is sent, the stored
    watermark is not written and the stored status stays RUNNING. *)
Theorem missing_function_name_raises
  (env : Env) (fuel : nat) (st : state) (l : Log) (ls : list Log)
  (ts : Z) (more : bool) :
  current_state (_config (self st)) ≠ Running →
  _validate_auth env st = (Returned tt, st) →
  cfg_items (_config (self st)) !! "function_name" = None →
  _gather_logs env 0 (self (started st)) = Fetched (l :: ls) ts more →
  (gather env (S fuel) st).1 = Raised (KeyError "function_name")
  ∧ trace (gather env (S fuel) st).2
    = trace st ++ EvMarkRunning
        :: sleep_events env (self (started st)) ++ [EvFetch 0]
  ∧ _gathered_log_count (self (gather env (S fuel) st).2)
    = _gathered_log_count (self st) + Z.of_nat (length (l :: ls))
  ∧ last_timestamp (_config (self (gather env (S fuel) st).2))
    = last_timestamp (_config (self st))
  ∧ current_state (_config (self (gather env (S fuel) st).2)) = Running.
Proof.
  intros Hrun Hval Hdest Hfetch. rewrite gather_eq. unfold is_running.
  rewrite bool_decide_eq_false_2 by done.
  rewrite Hval, gather_loop_eq, _gather_eq. unfold cycle_outcome.
  rewrite Hfetch. simpl. rewrite Hdest. simpl.
  split_and!; try done. by rewrite <- app_assoc.
Qed.

Lemma missing_function_name_raises_witness :
  let st := Examples.fresh (MoreExamples.config_no_function Idle) in
  current_state (_config (self st)) ≠ Running
  ∧ _validate_auth Examples.env_ok st = (Returned tt, st)
  ∧ (gather Examples.env_ok 1 st).1 = Raised (KeyError "function_name")
  ∧ _gathered_log_count (self (gather Examples.env_ok 1 st).2) = 3.
Proof.
  intros st.
  assert (current_state (_config (self st)) ≠ Running) as H1 by (by intros ?).
  assert (_validate_auth Examples.env_ok st = (Returned tt, st)) as H2
    by (vm_compute; reflexivity).
  destruct (missing_function_name_raises Examples.env_ok 0 st Examples.log1
              [Examples.log2; Examples.log3] 170 false H1 H2 eq_refl eq_refl)
    as (Hr & _ & Hc & _).
  split; [exact H1 |]. split; [exact H2 |]. split; [exact Hr |].
  rewrite Hc. reflexivity.
Defined.

(** ** The watermarks written during a run *)

Section Watermarks.

Variable env : Env.

Lemma watermark_writes_app (a b : list event) :
  watermark_writes (a ++ b) = watermark_writes a ++ watermark_writes b.
Proof.
  induction a as [|e a IH]; [done |]. destruct e; simpl; by rewrite ?IH.
Qed.

Lemma watermark_writes_sleep_events (app : AppIntegration) :
  watermark_writes (sleep_events env app) = [].
Proof. unfold sleep_events. by destruct (_poll_count app =? 0). Qed.

Lemma nondecreasing_snoc (lo x : Z) (l : list Z) :
  nondecreasing lo l → Forall (λ w, w <= x) l → lo <= x →
  nondecreasing lo (l ++ [x]).
Proof.
  revert lo. induction l as [|y l IH]; intros lo Hnd Hall Hlo; simpl; [done |].
  destruct Hnd as [Hy Hnd]. apply Forall_cons in Hall as [Hyx Hall].
  split; [done |]. by apply IH.
Qed.

(** The writes since [st0] never go down, start at [start] or above and stay
    at or below the in-memory watermark. *)
Lemma gather_loop_watermarks (start : Z) (fuel i : nat) (st : state) :
  adapter_monotone env →
  start <= _last_timestamp (self st) →
  ∃ evs,
    trace (gather_loop env fuel i st).2 = trace st ++ evs
    ∧ nondecreasing start (watermark_writes evs)
    ∧ Forall (λ w, w <= _last_timestamp (self (gather_loop env fuel i st).2))
             (watermark_writes evs)
    ∧ start <= _last_timestamp (self (gather_loop env fuel i st).2).
Proof.
  intros Hadv Hstart.
  apply (gather_loop_invariant env
    (λ s, ∃ evs, trace s = trace st ++ evs
            ∧ nondecreasing start (watermark_writes evs)
            ∧ Forall (λ w, w <= _last_timestamp (self s)) (watermark_writes evs)
            ∧ start <= _last_timestamp (self s))).
  - intros j s (evs & Htr & Hnd & Hall & Hlo).
    rewrite _gather_eq. unfold cycle_outcome.
    specialize (Hadv j (self s)).
    destruct (_gather_logs env j (self s)) as [[|l ls] ts more|e]; simpl.
    + pose proof Hadv as Hle.
      exists (evs ++ sleep_events env (self s) ++ [EvFetch j]).
      rewrite Htr, <- app_assoc, !watermark_writes_app,
        watermark_writes_sleep_events. simpl. rewrite app_nil_r.
      split_and!; [done | done | | lia].
      eapply Forall_impl; [exact Hall | simpl; intros; lia].
    + pose proof Hadv as Hle.
      assert (Forall (λ w, w <= ts) (watermark_writes evs)) as Hall'
        by (eapply Forall_impl; [exact Hall | simpl; intros; lia]).
      destruct (cfg_items (_config (self s)) !! "function_name") as [dest|];
        simpl; [destruct (send_logs env j dest (l :: ls)); simpl |].
      * exists (evs ++ sleep_events env (self s)
                ++ [EvFetch j; EvSend dest (l :: ls); EvSetLastTimestamp ts]).
        rewrite Htr, <- app_assoc, !watermark_writes_app,
          watermark_writes_sleep_events. simpl.
        split_and!; [done | | | lia].
        -- apply nondecreasing_snoc; [done | done | lia].
        -- apply Forall_app. split; [done | by repeat constructor].
      * exists (evs ++ sleep_events env (self s)
                ++ [EvFetch j; EvSend dest (l :: ls)]).
        rewrite Htr, <- app_assoc, !watermark_writes_app,
          watermark_writes_sleep_events. simpl. rewrite app_nil_r.
        split_and!; [done | done | done | lia].
      * exists (evs ++ sleep_events env (self s) ++ [EvFetch j]).
        rewrite Htr, <- app_assoc, !watermark_writes_app,
          watermark_writes_sleep_events. simpl. rewrite app_nil_r.
        split_and!; [done | done | done | lia].
    + exists (evs ++ sleep_events env (self s) ++ [EvFetch j]).
      rewrite Htr, <- app_assoc, !watermark_writes_app,
        watermark_writes_sleep_events. simpl. rewrite app_nil_r. done.
  - intros ms s (evs & Htr & Hnd & Hall & Hlo). simpl.
    exists (evs ++ [EvRemaining ms]).
    rewrite Htr, app_assoc, watermark_writes_app. simpl. rewrite app_nil_r. done.
  - intros s (evs & Htr & Hnd & Hall & Hlo). by exists evs.
  - exists []. rewrite app_nil_r. simpl. done.
Qed.

Lemma gather_watermarks (fuel : nat) (st : state) :
  adapter_monotone env →
  ∃ evs,
    trace (gather env fuel st).2 = trace st ++ evs
    ∧ nondecreasing (last_timestamp (_config (self st))) (watermark_writes evs).
Proof.
  intros Hadv. rewrite gather_eq.
  destruct (is_running (_config (self st)));
    [exists []; by rewrite app_nil_r |].
  destruct (_validate_auth_frame env st) as [-> | [args ->]];
    [| exists []; by rewrite app_nil_r].
  destruct (gather_loop_watermarks (last_timestamp (_config (self st)))
              fuel 0 (started st) Hadv)
    as (evs & Htr & Hnd & Hall & Hlo); [simpl; lia |].
  destruct (gather_loop env fuel 0 (started st)) as [[[]| |] st2]; simpl in *.
  - exists (EvMarkRunning :: evs
            ++ [EvMarkSuccess; EvSetLastTimestamp (_last_timestamp (self st2))]).
    rewrite Htr, <- !app_assoc. split; [done |]. simpl.
    rewrite watermark_writes_app. simpl. by apply nondecreasing_snoc.
  - exists (EvMarkRunning :: evs). rewrite Htr, <- !app_assoc. done.
  - exists (EvMarkRunning :: evs). rewrite Htr, <- !app_assoc. done.
Qed.

End Watermarks.

(** X6. If the subclass never sets [_last_timestamp] back, the watermarks a
    run writes to the store, the one of the finalization included, never go
    down and are never below the watermark the run started from, however the
    run ends: wherever the run is cut short, the stored watermark has not
    moved backwards. *)
Theorem stored_watermark_never_regresses (env : Env) (fuel : nat) (st : state) :
  adapter_monotone env →
  ∃ evs,
    trace (gather env fuel st).2 = trace st ++ evs
    ∧ nondecreasing (last_timestamp (_config (self st))) (watermark_writes evs).
Proof. apply gather_watermarks. Qed.

Lemma stored_watermark_never_regresses_witness :
  let st := Examples.fresh (Examples.config_with Examples.full_auth Idle) in
  adapter_monotone MoreExamples.env_spec_two_pages
  ∧ watermark_writes (trace (gather MoreExamples.env_spec_two_pages 3 st).2)
    = [150; 170; 170]
  ∧ ∃ evs,
      trace (gather MoreExamples.env_spec_two_pages 3 st).2 = trace st ++ evs
      ∧ nondecreasing 100 (watermark_writes evs).
Proof.
  intros st.
  assert (adapter_monotone MoreExamples.env_spec_two_pages) as H.
  { intros i app. simpl. unfold spec_gather_logs.
    destruct i; apply advance_watermark_ge. }
  split; [exact H |]. split; [vm_compute; reflexivity |].
  exact (stored_watermark_never_regresses MoreExamples.env_spec_two_pages 3 st H).
Defined.

(** ** Runs without records *)

Section EmptyRuns.

Variable env : Env.

Lemma sleeps_app (a b : list event) : sleeps (a ++ b) = sleeps a ++ sleeps b.
Proof.
  induction a as [|e a IH]; [done |]. destruct e; simpl; by rewrite ?IH.
Qed.

Lemma gather_loop_empty (fuel i : nat) (st : state) :
  (∀ j app, match _gather_logs env j app with
            | Fetched logs _ _ => logs = []
            | FetchRaised _ => True
            end) →
  _poll_count (self st) = 0 →
  ∃ evs,
    trace (gather_loop env fuel i st).2 = trace st ++ evs
    ∧ sleeps evs = [] ∧ sends evs = []
    ∧ _poll_count (self (gather_loop env fuel i st).2) = 0
    ∧ _gathered_log_count (self (gather_loop env fuel i st).2)
      = _gathered_log_count (self st).
Proof.
  intros Hempty Hp.
  apply (gather_loop_invariant env
    (λ s, ∃ evs, trace s = trace st ++ evs
            ∧ sleeps evs = [] ∧ sends evs = []
            ∧ _poll_count (self s) = 0
            ∧ _gathered_log_count (self s) = _gathered_log_count (self st))).
  - intros j s (evs & Htr & Hsl & Hsn & Hpc & Hgc).
    rewrite _gather_eq. unfold cycle_outcome, sleep_events. rewrite Hpc.
    specialize (Hempty j (self s)).
    destruct (_gather_logs env j (self s)) as [[|l ls] ts more|e]; simpl;
      [| discriminate |].
    + exists (evs ++ [EvFetch j]). rewrite Htr, app_assoc, sleeps_app, sends_app.
      rewrite Hsl, Hsn. done.
    + exists (evs ++ [EvFetch j]). rewrite Htr, app_assoc, sleeps_app, sends_app.
      rewrite Hsl, Hsn. done.
  - intros ms s (evs & Htr & Hsl & Hsn & Hpc & Hgc). simpl.
    exists (evs ++ [EvRemaining ms]).
    rewrite Htr, app_assoc, sleeps_app, sends_app, Hsl, Hsn. done.
  - intros s (evs & Htr & Hsl & Hsn & Hpc & Hgc). by exists evs.
  - exists []. by rewrite app_nil_r.
Qed.

End EmptyRuns.

(** X7. On a new instance, a run in which no fetch brings records never
    sleeps, however many iterations the continuation flag and the remaining
    time allow: [_poll_count] stays zero, so every iteration is taken for the
    first poll.  Such a run sends nothing and leaves both counters as they
    were. *)
Theorem empty_polls_never_sleep (env : Env) (fuel : nat) (st : state) :
  (∀ j app, match _gather_logs env j app with
            | Fetched logs _ _ => logs = []
            | FetchRaised _ => True
            end) →
  _poll_count (self st) = 0 →
  ∃ evs,
    trace (gather env fuel st).2 = trace st ++ evs
    ∧ sleeps evs = [] ∧ sends evs = []
    ∧ _poll_count (self (gather env fuel st).2) = 0
    ∧ _gathered_log_count (self (gather env fuel st).2)
      = _gathered_log_count (self st).
Proof.
  intros Hempty Hp. rewrite gather_eq.
  destruct (is_running (_config (self st)));
    [exists []; by rewrite app_nil_r |].
  destruct (_validate_auth_frame env st) as [-> | [args ->]];
    [| exists []; by rewrite app_nil_r].
  destruct (gather_loop_empty env fuel 0 (started st) Hempty Hp)
    as (evs & Htr & Hsl & Hsn & Hpc & Hgc).
  destruct (gather_loop env fuel 0 (started st)) as [[[]| |] st2]; simpl in *.
  - exists (EvMarkRunning :: evs
            ++ [EvMarkSuccess; EvSetLastTimestamp (_last_timestamp (self st2))]).
    rewrite Htr, <- !app_assoc. simpl. rewrite sleeps_app, sends_app, Hsl, Hsn.
    done.
  - exists (EvMarkRunning :: evs). rewrite Htr, <- !app_assoc. done.
  - exists (EvMarkRunning :: evs). rewrite Htr, <- !app_assoc. done.
Qed.

(** Three empty pages in a row, fetched back to back. *)
Lemma empty_polls_never_sleep_witness :
  let st := Examples.fresh (Examples.config_with Examples.full_auth Idle) in
  _poll_count (self st) = 0
  ∧ trace (gather MoreExamples.env_all_empty 5 st).2
    = [EvMarkRunning; EvFetch 0; EvRemaining 60000; EvFetch 1;
       EvRemaining 60000; EvFetch 2; EvRemaining 1000;
       EvMarkSuccess; EvSetLastTimestamp 100]
  ∧ ∃ evs,
      trace (gather MoreExamples.env_all_empty 5 st).2 = trace st ++ evs
      ∧ sleeps evs = [].
Proof.
  intros st. split; [reflexivity |]. split; [vm_compute; reflexivity |].
  destruct (empty_polls_never_sleep MoreExamples.env_all_empty 5 st)
    as (evs & Htr & Hsl & _); [by intros j app | reflexivity |].
  exists evs. split; [exact Htr | exact Hsl].
Defined.

(** ** Validation, case by case *)

(** X8. Validation never changes the state, raises nothing but a
    configuration error, and succeeds exactly when the configuration has an
    item [auth] whose keys cover the required ones.  So a configuration that
    is empty or lacks [auth] is refused even by a subclass that requires no
    key at all. *)
Theorem validate_auth_succeeds_iff (env : Env) (st : state) :
  (_validate_auth env st).2 = st
  ∧ ((_validate_auth env st).1 = Returned tt
     ↔ ∃ auth, cfg_items (_config (self st)) !! "auth" = Some auth
               ∧ dom (required_auth_keys env) ⊆ py_set auth)
  ∧ (∀ e, (_validate_auth env st).1 = Raised e →
          ∃ args, e = AppIntegrationConfigError args)
  ∧ (cfg_items (_config (self st)) !! "auth" = None →
     ∃ args, (_validate_auth env st).1 = Raised (AppIntegrationConfigError args)).
Proof.
  unfold _validate_auth, bind, get_self, ret, raise. simpl.
  destruct (Nat.eqb_spec (size (cfg_items (_config (self st)))) 0) as [Hz | Hnz].
  - apply map_size_empty_iff in Hz. rewrite Hz. simpl.
    split_and!; [done | | intros e [= <-]; eauto | eauto].
    split; [discriminate |]. intros (auth & Hauth & _).
    by rewrite lookup_empty in Hauth.
  - destruct (cfg_items (_config (self st)) !! "auth") as [auth|] eqn:Hauth; simpl.
    + destruct (bool_decide_reflect
                  (dom (required_auth_keys env) ∖ py_set auth = ∅)) as [He | Hne];
        simpl.
      * split_and!; [done | | discriminate | discriminate].
        split; [| done]. intros _. exists auth. split; [done |].
        intros k Hk. destruct (decide (k ∈ py_set auth)) as [| Hn]; [done |].
        assert (k ∈ dom (required_auth_keys env) ∖ py_set auth) as Hin
          by (apply elem_of_difference; done).
        rewrite He in Hin. by apply not_elem_of_empty in Hin.
      * split_and!; [done | | intros e [= <-]; eauto | discriminate].
        split; [discriminate |]. intros (auth' & [= <-] & Hsub).
        exfalso. apply Hne. apply elem_of_equiv_empty_L.
        intros k [Hk Hnk]%elem_of_difference. apply Hnk, Hsub, Hk.
    + split_and!; [done | | intros e [= <-]; eauto | eauto].
      split; [discriminate |]. by intros (auth' & [=] & _).
Qed.

(** ** When the time is up *)

Section Signs.

Import PyNum.
Local Open Scope Q_scope.

Lemma round_half_even_nonneg (x : Q) : 0 <= x -> (0 <= round_half_even x)%Z.
Proof.
  intros Hx. unfold round_half_even.
  assert (0 <= Qfloor x)%Z as Hf.
  { apply Z.lt_succ_r. rewrite Zlt_Qlt. unfold Z.succ.
    pose proof (Qlt_floor x). change (inject_Z 0) with 0. lra. }
  destruct (Qcompare _ _); [destruct (Z.even _) |..]; lia.
Qed.

Lemma round_half_even_nonpos (x : Q) : x <= 0 -> (round_half_even x <= 0)%Z.
Proof.
  intros Hx. unfold round_half_even.
  pose proof (Qfloor_le x) as Hlo.
  assert (Qfloor x <= 0)%Z as Hf.
  { rewrite Zle_Qle. change (inject_Z 0) with 0. lra. }
  destruct (Qcompare_spec (x - inject_Z (Qfloor x)) (1 # 2)) as [He | Hl | Hg];
    [| done |].
  - assert (Qfloor x <> 0)%Z as Hne.
    { intros H0. rewrite H0 in He. change (inject_Z 0) with 0 in He. lra. }
    destruct (Z.even _); lia.
  - assert (Qfloor x <> 0)%Z as Hne.
    { intros H0. rewrite H0 in Hg. change (inject_Z 0) with 0 in Hg. lra. }
    lia.
Qed.

Lemma b64_nonneg (x : Q) : 0 <= x -> 0 <= b64 x.
Proof.
  intros Hx. unfold b64. destruct (Qeq_bool x 0); [lra |].
  rewrite Qred_correct.
  set (u := Z.max _ _). pose proof (pow2_pos u) as Hu.
  apply Qmult_le_0_compat; [| lra].
  change 0 with (inject_Z 0). rewrite <- Zle_Qle.
  apply round_half_even_nonneg. apply Qle_shift_div_l; [done | lra].
Qed.

Lemma b64_nonpos (x : Q) : x <= 0 -> b64 x <= 0.
Proof.
  intros Hx. unfold b64. destruct (Qeq_bool x 0); [lra |].
  rewrite Qred_correct.
  set (u := Z.max _ _). pose proof (pow2_pos u) as Hu.
  assert (inject_Z (round_half_even (x / 2 ^ u)) <= 0) as Hm.
  { change 0 with (inject_Z 0). rewrite <- Zle_Qle.
    apply round_half_even_nonpos. apply Qle_shift_div_r; [done | lra]. }
  apply Qle_trans with (0 * 2 ^ u); [| lra].
  apply Qmult_le_compat_r; [done | lra].
Qed.

Lemma dec28_nonneg (x : Q) : 0 <= x -> 0 <= dec28 x.
Proof.
  intros Hx. unfold dec28. destruct (Qeq_bool x 0); [lra |].
  rewrite Qred_correct.
  set (u := (_ - 27)%Z). pose proof (pow10_pos u) as Hu.
  apply Qmult_le_0_compat; [| lra].
  change 0 with (inject_Z 0). rewrite <- Zle_Qle.
  apply round_half_even_nonneg. apply Qle_shift_div_l; [done | lra].
Qed.

(** A cost computed from a measured time that is not negative does not fit
    into a remaining time that is zero or negative. *)
Lemma admits_time_up (el : Q) (secs : N) (ms : Z) :
  0 <= el -> (ms <= 0)%Z ->
  admits (projected_cost (buffered (float_lit el)) secs) ms = false.
Proof.
  intros Hel Hms.
  unfold admits, float_ltb. apply negb_false_iff, Qle_bool_iff.
  apply Qle_trans with 0.
  - unfold float_div, float_of_int. apply b64_nonpos.
    assert (b64 (inject_Z ms) <= 0) as Hn.
    { apply b64_nonpos. change 0 with (inject_Z 0). by rewrite <- Zle_Qle. }
    assert (float_lit 1000 = 1000) as -> by (vm_compute; reflexivity).
    apply Qle_shift_div_r; lra.
  - unfold projected_cost, float_add, float_of_int, buffered, float_of_decimal,
      decimal_mul, Decimal, float_lit.
    rewrite multiplier_value.
    apply b64_nonneg.
    assert (0 <= b64 el) as H1 by (by apply b64_nonneg).
    assert (0 <= b64 (dec28 (b64 el * (5404319552844595 # 4503599627370496))))
      as H2.
    { apply b64_nonneg, dec28_nonneg. apply Qmult_le_0_compat; lra. }
    assert (0 <= b64 (inject_Z (Z.of_N secs))) as H3.
    { apply b64_nonneg. change 0 with (inject_Z 0). rewrite <- Zle_Qle. lia. }
    lra.
Qed.

End Signs.

Section LastIteration.

Variable env : Env.

(** After an iteration that is the last one whatever the instance looks
    like, nothing is fetched. *)
Lemma gather_loop_last_fetch (k : nat) :
  stops_at env k →
  ∀ fuel i st, (i ≤ k)%nat →
    ∃ evs, trace (gather_loop env fuel i st).2 = trace st ++ evs
           ∧ ∀ j, EvFetch j ∈ evs → (j ≤ k)%nat.
Proof.
  intros Hstop fuel.
  induction fuel as [|fuel IH]; intros i st Hik.
  { exists []. rewrite gather_loop_zero, app_nil_r. split; [done |].
    intros j Hin. by apply elem_of_nil in Hin. }
  rewrite gather_loop_eq.
  destruct (_gather_trace env i st) as (evs1 & Htr1 & Hev1 & _).
  assert (∀ j, EvFetch j ∈ evs1 → (j ≤ k)%nat) as Hidx.
  { intros j Hin. rewrite Forall_forall in Hev1.
    specialize (Hev1 _ Hin). simpl in Hev1. lia. }
  destruct (_gather env i st) as [[g| |] st1] eqn:Hg; simpl in *;
    try (exists evs1; split; [done | exact Hidx]).
  apply _gather_returned in Hg as [-> Hflag].
  assert (∀ j, EvFetch j ∈ evs1 ++ [EvRemaining (remaining_ms env i)] →
               (j ≤ k)%nat) as Hidx'.
  { intros j [Hin | Hin]%elem_of_app; [by apply Hidx | event_not_in Hin]. }
  destruct (admits _ _) eqn:Hadm;
    [| exists (evs1 ++ [EvRemaining (remaining_ms env i)]);
       rewrite Htr1, app_assoc; split; [done | exact Hidx']].
  destruct (_more_to_poll (self st1)) eqn:Hmore;
    [| exists (evs1 ++ [EvRemaining (remaining_ms env i)]);
       rewrite Htr1, app_assoc; split; [done | exact Hidx']].
  destruct (decide (i = k)) as [-> | Hne].
  { exfalso. destruct Hstop as [Hcost | Hnoflag].
    - rewrite Hcost in Hadm. discriminate.
    - rewrite Hnoflag in Hflag. discriminate. }
  edestruct (IH (S i)) as (evs2 & Htr2 & Hev2); [| rewrite Htr2]; [lia |].
  simpl. exists ((evs1 ++ [EvRemaining (remaining_ms env i)]) ++ evs2).
  rewrite Htr1, !app_assoc. split; [done |].
  intros j [Hin | Hin]%elem_of_app; [by apply Hidx' | by apply Hev2].
Qed.

End LastIteration.

(** X9. Once the host reports that no time is left, no further cycle is
    started: if after cycle [k], whose measured time is not negative, the
    remaining time is zero or negative, then cycle [k] is the last one
    fetched, whatever the continuation flag says, and the loop ends. *)
Theorem no_cycle_after_time_is_up (env : Env) (fuel : nat) (st : state) (k : nat) :
  (0 <= elapsed env k)%Q →
  remaining_ms env k <= 0 →
  ∃ evs,
    trace (gather env fuel st).2 = trace st ++ evs
    ∧ (∀ j, EvFetch j ∈ evs → (j ≤ k)%nat)
    ∧ ((k < fuel)%nat → (gather env fuel st).1 ≠ OutOfFuel).
Proof.
  intros Hel Hms.
  assert (stops_at env k) as Hstop.
  { left. intros app. by apply admits_time_up. }
  rewrite gather_eq.
  destruct (is_running (_config (self st))).
  { exists []. rewrite app_nil_r. split; [done |]. split; [| done].
    intros j Hin. by apply elem_of_nil in Hin. }
  destruct (_validate_auth_frame env st) as [-> | [args ->]].
  2: { exists []. rewrite app_nil_r. split; [done |]. split; [| done].
       intros j Hin. by apply elem_of_nil in Hin. }
  destruct (gather_loop_last_fetch env k Hstop fuel 0%nat (started st))
    as (evs & Htr & Hev); [lia |].
  pose proof (gather_loop_stops env k Hstop fuel 0%nat (started st)) as Hfuel.
  destruct (gather_loop env fuel 0 (started st)) as [[[]| |] st2]; simpl in *.
  - exists (EvMarkRunning :: evs
            ++ [EvMarkSuccess; EvSetLastTimestamp (_last_timestamp (self st2))]).
    rewrite Htr, <- !app_assoc. split; [done |]. split; [| done].
    intros j [[=] | [Hin | Hin]%elem_of_app]%elem_of_cons;
      [by apply Hev | event_not_in Hin].
  - exists (EvMarkRunning :: evs). rewrite Htr, <- app_assoc.
    split; [done |]. split; [| done].
    intros j [[=] | Hin]%elem_of_cons. by apply Hev.
  - exists (EvMarkRunning :: evs). rewrite Htr, <- app_assoc.
    split; [done |]. split.
    + intros j [[=] | Hin]%elem_of_cons. by apply Hev.
    + intros Hk _. apply Hfuel; [lia | lia | done].
Qed.

(** Every page announces more data, but the time is up after the first
    cycle. *)
Lemma no_cycle_after_time_is_up_witness :
  let st := Examples.fresh (Examples.config_with Examples.full_auth Idle) in
  (0 <= elapsed MoreExamples.env_time_up 0)%Q
  ∧ remaining_ms MoreExamples.env_time_up 0 <= 0
  ∧ (gather MoreExamples.env_time_up 4 st).1 = Returned tt
  ∧ ∃ evs,
      trace (gather MoreExamples.env_time_up 4 st).2 = trace st ++ evs
      ∧ ∀ j, EvFetch j ∈ evs → (j ≤ 0)%nat.
Proof.
  intros st.
  assert (0 <= elapsed MoreExamples.env_time_up 0)%Q as H1 by (by intros ?).
  assert (remaining_ms MoreExamples.env_time_up 0 <= 0) as H2 by (by intros ?).
  split; [exact H1 |]. split; [exact H2 |]. split; [vm_compute; reflexivity |].
  destruct (no_cycle_after_time_is_up MoreExamples.env_time_up 4 st 0 H1 H2)
    as (evs & Htr & Hev & _).
  exists evs. split; [exact Htr | exact Hev].
Defined.

(** * The registry *)

Section RegistryFacts.

Import Registry.

(** X10. Registration and lookup go together: after [app(cls)], a
    configuration whose [type] is the type of [cls] is resolved to [cls], the
    result being what calling [cls] on the configuration returns; every other
    configuration is resolved as before the registration. *)
Theorem get_app_after_registration
  (apps : gmap string AppClass) (cls : AppClass) (config : AppConfig) :
  (∀ a,
     cfg_items config !! "type" = Some (CStr (class_type cls)) →
     cls_new cls config = Returned a →
     get_app (app cls apps) config = Returned (cls, a))
  ∧ (cfg_items config !! "type" ≠ Some (CStr (class_type cls)) →
     get_app (app cls apps) config = get_app apps config).
Proof.
  split.
  - intros a Hty Hnew. unfold get_app, lookup_and_call, app.
    rewrite Hty, lookup_insert_eq, Hnew. done.
  - intros Hty. unfold get_app, lookup_and_call, app.
    destruct (cfg_items config !! "type") as [[t|d]|]; [| done | done].
    rewrite lookup_insert_ne; [done |]. intros Heq. apply Hty. by rewrite Heq.
Qed.

Lemma get_app_after_registration_witness :
  let config := Examples.config_with Examples.full_auth Idle in
  cfg_items config !! "type" = Some (CStr (class_type MoreExamples.zendesk))
  ∧ get_app (app MoreExamples.zendesk ∅) config
    = Returned (MoreExamples.zendesk, __init__ config).
Proof.
  intros config. split; [reflexivity |].
  apply (get_app_after_registration ∅ MoreExamples.zendesk config);
    reflexivity.
Defined.

(** X11. [get_app] never lets a [KeyError] out.  A configuration without
    [type] and a type that is not registered each give an
    [AppIntegrationException] with a message of its own, the second one
    naming the type. *)
Theorem get_app_key_errors (apps : gmap string AppClass) (config : AppConfig) :
  (∀ k, get_app apps config ≠ Raised (KeyError k))
  ∧ (cfg_items config !! "type" = None →
     get_app apps config
     = Raised (AppIntegrationException
                 ["The 'type' is not defined in the config."]))
  ∧ (∀ t, cfg_items config !! "type" = Some (CStr t) →
          apps !! t = None →
          get_app apps config
          = Raised (AppIntegrationException
                      ["App integration does not exist for type: " +:+ t])).
Proof.
  split_and!.
  - intros k. unfold get_app.
    destruct (lookup_and_call apps config) as [[c a]|[]|]; try done.
    by destruct (cfg_items config !! "type").
  - intros Hty. unfold get_app, lookup_and_call. by rewrite Hty.
  - intros t Hty Hno. unfold get_app, lookup_and_call. by rewrite Hty, Hno.
Qed.

(** X12. An error raised while the registered class is instantiated leaves
    [get_app] unchanged, unless it is a [KeyError]: that one is reported as
    if no class were registered for the type. *)
Theorem get_app_constructor_errors
  (apps : gmap string AppClass) (config : AppConfig) (t : string)
  (cls : AppClass) (e : exn) :
  cfg_items config !! "type" = Some (CStr t) →
  apps !! t = Some cls →
  cls_new cls config = Raised e →
  get_app apps config
  = match e with
    | KeyError _ =>
        Raised (AppIntegrationException
                  ["App integration does not exist for type: " +:+ t])
    | _ => Raised e
    end.
Proof.
  intros Hty Hcls Hnew. unfold get_app, lookup_and_call.
  rewrite Hty, Hcls, Hnew. by destruct e.
Qed.

Lemma get_app_constructor_errors_witness :
  let config := Examples.config_with Examples.full_auth Idle in
  app MoreExamples.broken ∅ !! "zendesk_audit" = Some MoreExamples.broken
  ∧ get_app (app MoreExamples.broken ∅) config
    = Raised (AppIntegrationException
                ["App integration does not exist for type: zendesk_audit"]).
Proof.
  intros config. split; [reflexivity |].
  apply (get_app_constructor_errors (app MoreExamples.broken ∅) config
           "zendesk_audit" MoreExamples.broken (KeyError "region"));
    reflexivity.
Defined.

(** X13. [type()] joins the two names with an underscore, so it cannot tell
    where the service name ends: the classes [(a_b, c)] and [(a, b_c)] have
    the same type, and registering the second erases the first from the
    registry. *)
Theorem registration_collision
  (apps : gmap string AppClass) (cls1 cls2 : AppClass) (a b c : string) :
  cls_service cls1 = a +:+ "_" +:+ b →
  cls_type cls1 = c →
  cls_service cls2 = a →
  cls_type cls2 = b +:+ "_" +:+ c →
  class_type cls1 = class_type cls2
  ∧ app cls2 (app cls1 apps) = app cls2 apps.
Proof.
  intros H1 H2 H3 H4.
  assert (class_type cls1 = class_type cls2) as Heq.
  { unfold class_type. rewrite H1, H2, H3, H4.
    by rewrite !string_app_assoc. }
  split; [done |]. unfold app. rewrite Heq. apply insert_insert_eq.
Qed.

Lemma registration_collision_witness :
  class_type MoreExamples.duo_admin_v2 = "duo_admin_v2"
  ∧ class_type MoreExamples.duo_admin_v2' = "duo_admin_v2"
  ∧ app MoreExamples.duo_admin_v2' (app MoreExamples.duo_admin_v2 ∅)
    = app MoreExamples.duo_admin_v2' ∅.
Proof.
  split; [reflexivity |]. split; [reflexivity |].
  exact (proj2 (registration_collision ∅ MoreExamples.duo_admin_v2
                  MoreExamples.duo_admin_v2' "duo" "admin" "v2"
                  eq_refl eq_refl eq_refl eq_refl)).
Defined.

End RegistryFacts.

(** * The check of an HTTP response *)

(** X14. [_check_http_response] answers [True] exactly for a response with a
    status from 200 to 299, and [False] for no response.  For any other
    response it answers [False] only if the body can be parsed and has an
    entry [message]; otherwise the check itself raises, for instance
    [KeyError] for a JSON object without [message]. *)
Theorem check_http_response_cases (response : option Response) :
  (_check_http_response response = Py.Ok true
   ↔ ∃ r, response = Some r ∧ 200 <= status_code r <= 299)
  ∧ (response = None → _check_http_response response = Py.Ok false)
  ∧ (∀ r, response = Some r → ¬ (200 <= status_code r <= 299) →
       (_check_http_response response = Py.Ok false
        ↔ ∃ body msg, json r = Py.Ok body
                      ∧ Py.subscript body (Py.VStr "message") = Py.Ok msg)
       ∧ (∀ e, json r = Py.Err e → _check_http_response response = Py.Err e)
       ∧ (∀ d, json r = Py.Ok (Py.VDict d) → d !! "message" = None →
               _check_http_response response
               = Py.Err (Py.KeyError (Py.VStr "message")))).
Proof.
  unfold _check_http_response. split_and!.
  - destruct response as [r|]; [| split; [discriminate | by intros (r & [=] & _)]].
    destruct (Z.leb_spec 200 (status_code r)), (Z.leb_spec (status_code r) 299);
      simpl.
    + split; [intros _; exists r; split; [done | lia] | done].
    + split; [| intros (r' & [= <-] & ?); lia].
      destruct (json r) as [body|e]; [| discriminate].
      destruct (Py.subscript body _); discriminate.
    + split; [| intros (r' & [= <-] & ?); lia].
      destruct (json r) as [body|e]; [| discriminate].
      destruct (Py.subscript body _); discriminate.
    + split; [| intros (r' & [= <-] & ?); lia].
      destruct (json r) as [body|e]; [| discriminate].
      destruct (Py.subscript body _); discriminate.
  - by intros ->.
  - intros r -> Hcode.
    assert ((200 <=? status_code r) && (status_code r <=? 299) = false) as ->.
    { apply andb_false_iff.
      destruct (Z.leb_spec 200 (status_code r)); [| by left].
      destruct (Z.leb_spec (status_code r) 299); [lia | by right]. }
    simpl. split_and!.
    + destruct (json r) as [body|e].
      * destruct (Py.subscript body (Py.VStr "message")) as [msg|e] eqn:Hm.
        -- split; [intros _; by exists body, msg | done].
        -- split; [discriminate |]. intros (b & m & [= <-] & Hm').
           rewrite Hm in Hm'. discriminate.
      * split; [discriminate |]. by intros (b & m & [=] & _).
    + by intros e ->.
    + intros d -> Hd. simpl. by rewrite Hd.
Qed.

(** * The helpers *)

Section HelperFacts.

Import Helpers.

(** ** [last_hour] *)

Lemma int_of_float_mono (x y : Q) :
  (x <= y)%Q → Py.int_of_float x <= Py.int_of_float y.
Proof.
  intros Hxy. unfold Py.int_of_float.
  destruct (Qle_bool 0 x) eqn:Hx; destruct (Qle_bool 0 y) eqn:Hy.
  - by apply Qfloor_resp_le.
  - apply Qle_bool_iff in Hx.
    assert (Qle_bool 0 y = true) as Hy' by (apply Qle_bool_iff; lra).
    congruence.
  - apply Qle_bool_iff in Hy.
    assert (¬ (0 <= x)%Q) as Hx' by (rewrite <- Qle_bool_iff; congruence).
    apply Z.le_trans with 0.
    + pose proof (Qceiling_lt x) as Hc.
      assert (Qceiling x - 1 < 0)%Z; [| lia].
      rewrite Zlt_Qlt. change (inject_Z 0) with 0%Q. lra.
    + apply Z.lt_succ_r. rewrite Zlt_Qlt. unfold Z.succ.
      pose proof (Qlt_floor y). change (inject_Z 0) with 0%Q. lra.
  - by apply Qceiling_resp_le.
Qed.

(** X15. [last_hour] takes a timestamp of zero for a missing one and
    answers [False] whatever the time is; and it has no lower end: every
    other timestamp that is not before the current second, however far in
    the future, is within the last hours. *)
Theorem last_hour_edges (now : PyNum.float) (hours : Z) :
  last_hour now None hours = false
  ∧ last_hour now (Some 0) hours = false
  ∧ (∀ t, t ≠ 0 → Py.int_of_float now <= t → 0 <= hours →
          last_hour now (Some t) hours = true).
Proof.
  split; [done |]. split; [done |].
  intros t Ht Hfut Hh. unfold last_hour.
  destruct (Z.eqb_spec t 0); [done |]. apply Z.leb_le. lia.
Qed.

(** X16. [last_hour] is monotone both ways: a timestamp within the last
    [hours] hours is within any longer span, and one that is within the span
    at some time was within it at every earlier time. *)
Theorem last_hour_monotone
  (now now' : PyNum.float) (unixtime : option Z) (hours hours' : Z) :
  last_hour now' unixtime hours = true →
  (now <= now')%Q →
  hours <= hours' →
  last_hour now unixtime hours' = true.
Proof.
  unfold last_hour. intros Hin Hnow Hh.
  destruct unixtime as [t|]; [| done].
  destruct (t =? 0); [done |].
  apply Z.leb_le in Hin. apply Z.leb_le.
  pose proof (int_of_float_mono now now' Hnow). lia.
Qed.

Lemma last_hour_monotone_witness :
  last_hour (1500003600 # 1)%Q (Some 1500000000) 1 = true
  ∧ last_hour (3000001 # 2)%Q (Some 1500000000) 2 = true.
Proof.
  split; [reflexivity |].
  apply (last_hour_monotone (3000001 # 2)%Q (1500003600 # 1)%Q
           (Some 1500000000) 1 2); [reflexivity | by intros ? | lia].
Defined.

(** ** [in_network] *)

(** X17. [in_network] answers [True] exactly when one of the CIDRs can be
    read and holds the address.  A CIDR that cannot be read is skipped: it
    neither raises nor hides a later match.  So the answer does not depend
    on the order in which the set of CIDRs is gone through. *)
Theorem in_network_spec
  {address network : Type}
  (IPNetwork : string → option network) (member : address → network → bool)
  (ip_address : address) (cidrs : list string) :
  (in_network IPNetwork member ip_address cidrs = true
   ↔ ∃ cidr net, cidr ∈ cidrs ∧ IPNetwork cidr = Some net
                 ∧ member ip_address net = true)
  ∧ (∀ cidrs', cidrs ≡ₚ cidrs' →
       in_network IPNetwork member ip_address cidrs'
       = in_network IPNetwork member ip_address cidrs).
Proof.
  assert (∀ l, in_network IPNetwork member ip_address l = true
               ↔ ∃ cidr net, cidr ∈ l ∧ IPNetwork cidr = Some net
                             ∧ member ip_address net = true) as Hspec.
  { induction l as [|c l IH]; simpl.
    - split; [discriminate |]. intros (cidr & net & Hin & _).
      by apply elem_of_nil in Hin.
    - destruct (IPNetwork c) as [net|] eqn:Hc.
      + destruct (member ip_address net) eqn:Hm.
        * split; [intros _ | done]. exists c, net. split; [left |]; done.
        * rewrite IH. split.
          -- intros (cidr & net' & Hin & Hp & Hm'). exists cidr, net'.
             split; [by right | done].
          -- intros (cidr & net' & [-> | Hin]%elem_of_cons & Hp & Hm').
             ++ congruence.
             ++ by exists cidr, net'.
      + rewrite IH. split.
        * intros (cidr & net' & Hin & Hp & Hm'). exists cidr, net'.
          split; [by right | done].
        * intros (cidr & net' & [-> | Hin]%elem_of_cons & Hp & Hm').
          -- congruence.
          -- by exists cidr, net'. }
  split; [apply Hspec |].
  intros cidrs' Hperm.
  destruct (in_network IPNetwork member ip_address cidrs) eqn:H1.
  - apply Hspec. apply Hspec in H1 as (cidr & net & Hin & Hp & Hm).
    exists cidr, net. split; [by rewrite <- Hperm | done].
  - destruct (in_network IPNetwork member ip_address cidrs') eqn:H2; [| done].
    apply Hspec in H2 as (cidr & net & Hin & Hp & Hm).
    assert (in_network IPNetwork member ip_address cidrs = true) as H3.
    { apply Hspec. exists cidr, net. split; [by rewrite Hperm | done]. }
    congruence.
Qed.

(** ** [fetch_values_by_datatype] *)

Lemma collect_spec (rec : Py.value) (entries acc : list Py.value) :
  ∀ results,
    collect rec entries acc = Py.Ok results
    ↔ ∃ values, results = acc ++ values
                ∧ Forall2 (λ e v, resolve rec e = Py.Ok v) entries values.
Proof.
  revert acc. induction entries as [|e entries IH]; intros acc results; simpl.
  - split.
    + intros [= <-]. exists []. by rewrite app_nil_r.
    + intros (values & -> & Hf). apply Forall2_nil_inv_l in Hf as ->.
      by rewrite app_nil_r.
  - destruct (resolve rec e) as [v|err] eqn:He.
    + rewrite IH. split.
      * intros (values & -> & Hf). exists (v :: values).
        rewrite <- app_assoc. split; [done |]. by constructor.
      * intros (values & -> & Hf).
        apply Forall2_cons_inv_l in Hf as (v' & values' & Hv & Hf & ->).
        assert (v' = v) as -> by congruence.
        exists values'. by rewrite <- app_assoc.
    + split; [discriminate |]. intros (values & _ & Hf).
      apply Forall2_cons_inv_l in Hf as (v' & values' & Hv & _).
      congruence.
Qed.

(** X18. A record without [normalized_types] makes the function raise
    [KeyError]; a record that has it, but no entry for the datatype, gives
    the empty list.  Nothing but a dict with an item [normalized_types] gets
    a result at all, and a result that is not empty is only returned when
    that item is itself a dict with an entry for the datatype: a list or a
    string that holds the datatype makes the function raise. *)
Theorem fetch_values_missing_keys (d : gmap string Py.value) (datatype : string) :
  (d !! "normalized_types" = None →
   fetch_values_by_datatype (Py.VDict d) datatype
   = Py.Err (Py.KeyError (Py.VStr "normalized_types")))
  ∧ (∀ types, d !! "normalized_types" = Some (Py.VDict types) →
       types !! datatype = None →
       fetch_values_by_datatype (Py.VDict d) datatype = Py.Ok [])
  ∧ (∀ rec results,
       fetch_values_by_datatype rec datatype = Py.Ok results →
       ∃ d' types,
         rec = Py.VDict d' ∧ d' !! "normalized_types" = Some types
         ∧ (results ≠ [] →
            ∃ tys, types = Py.VDict tys ∧ is_Some (tys !! datatype))).
Proof.
  split_and!.
  - intros Hd. unfold fetch_values_by_datatype. simpl. by rewrite Hd.
  - intros types Hd Ht. unfold fetch_values_by_datatype. simpl.
    rewrite Hd. simpl. rewrite bool_decide_eq_false_2; [done |].
    rewrite Ht. by intros [? ?].
  - intros rec results H. unfold fetch_values_by_datatype in H.
    destruct rec as [| | | |l|d']; simpl in H; try discriminate.
    destruct (d' !! "normalized_types") as [types|] eqn:Hd; [| discriminate].
    exists d', types. split_and!; [done | done |].
    intros Hne.
    destruct types as [| | |s|l|tys]; simpl in H; try discriminate.
    + destruct (String.index 0 datatype s); simpl in H; [discriminate |].
      by inversion H; subst.
    + destruct (existsb (Py.is_str datatype) l); simpl in H; [discriminate |].
      by inversion H; subst.
    + destruct (bool_decide (is_Some (tys !! datatype))) eqn:Hb.
      * apply bool_decide_eq_true in Hb. by exists tys.
      * by inversion H; subst.
Qed.

(** X19. For a datatype with a list of paths, the function returns one value
    per path, in the order of the paths, each the value the path leads to in
    the record; if one path cannot be followed the call raises and no value
    is returned. *)
Theorem fetch_values_one_per_path
  (d types : gmap string Py.value) (datatype : string) (paths : list Py.value) :
  d !! "normalized_types" = Some (Py.VDict types) →
  types !! datatype = Some (Py.VList paths) →
  (∀ results,
     fetch_values_by_datatype (Py.VDict d) datatype = Py.Ok results
     ↔ Forall2 (λ p v, resolve (Py.VDict d) p = Py.Ok v) paths results)
  ∧ (∀ results,
       fetch_values_by_datatype (Py.VDict d) datatype = Py.Ok results →
       length results = length paths)
  ∧ (∀ p e, p ∈ paths → resolve (Py.VDict d) p = Py.Err e →
       ∃ e', fetch_values_by_datatype (Py.VDict d) datatype = Py.Err e').
Proof.
  intros Hd Ht.
  assert (fetch_values_by_datatype (Py.VDict d) datatype
          = collect (Py.VDict d) paths []) as ->.
  { unfold fetch_values_by_datatype. simpl. rewrite Hd. simpl.
    rewrite bool_decide_eq_true_2 by (rewrite Ht; eauto). by rewrite Ht. }
  assert (∀ results,
    collect (Py.VDict d) paths [] = Py.Ok results
    ↔ Forall2 (λ p v, resolve (Py.VDict d) p = Py.Ok v) paths results) as Hspec.
  { intros results. rewrite collect_spec. split.
    - by intros (values & -> & Hf).
    - intros Hf. by exists results. }
  split_and!; [exact Hspec | |].
  - intros results Hr. apply Hspec in Hr. symmetry. by eapply Forall2_length.
  - intros p e Hin He.
    destruct (collect (Py.VDict d) paths []) as [results|e'] eqn:Hc; [| eauto].
    assert (Forall2 (λ p v, resolve (Py.VDict d) p = Py.Ok v) paths results)
      as Hf by (by apply Hspec).
    exfalso. apply list_elem_of_lookup in Hin as [i Hi].
    destruct (Forall2_lookup_l _ _ _ _ _ Hf Hi) as (v & _ & Hv). congruence.
Qed.

Lemma fetch_values_one_per_path_witness :
  fetch_values_by_datatype MoreExamples.record "ipv4"
  = Py.Ok [Py.VStr "1.1.1.2"; Py.VStr "10.0.0.1"]
  ∧ ∀ results,
      fetch_values_by_datatype MoreExamples.record "ipv4" = Py.Ok results →
      length results = 2%nat.
Proof.
  split; [vm_compute; reflexivity |].
  pose proof (fetch_values_one_per_path
    (<["normalized_types" :=
         Py.VDict {["ipv4" :=
           Py.VList [Py.VList [Py.VStr "detail"; Py.VStr "sourceIPAddress"];
                     Py.VList [Py.VStr "client"]]]}]>
       (<["detail" := Py.VDict {["sourceIPAddress" := Py.VStr "1.1.1.2"]}]>
          {["client" := Py.VStr "10.0.0.1"]}))
    {["ipv4" :=
        Py.VList [Py.VList [Py.VStr "detail"; Py.VStr "sourceIPAddress"];
                  Py.VList [Py.VStr "client"]]]}
    "ipv4"
    [Py.VList [Py.VStr "detail"; Py.VStr "sourceIPAddress"];
     Py.VList [Py.VStr "client"]]
    eq_refl eq_refl) as (_ & Hlen & _).
  exact Hlen.
Defined.

(** X20. A path has to be a list of keys.  For an entry that is anything
    else, a bare key for instance, the function does not look the key up: it
    returns the whole record for it.  With no list among the entries the
    result is as many copies of the record as there are entries. *)
Theorem fetch_values_bare_keys
  (d types : gmap string Py.value) (datatype : string) (paths : list Py.value) :
  d !! "normalized_types" = Some (Py.VDict types) →
  types !! datatype = Some (Py.VList paths) →
  Forall (λ p, ∀ keys, p ≠ Py.VList keys) paths →
  fetch_values_by_datatype (Py.VDict d) datatype
  = Py.Ok (replicate (length paths) (Py.VDict d)).
Proof.
  intros Hd Ht Hbare.
  unfold fetch_values_by_datatype. simpl. rewrite Hd. simpl.
  rewrite bool_decide_eq_true_2 by (rewrite Ht; eauto). rewrite Ht. simpl.
  apply collect_spec. exists (replicate (length paths) (Py.VDict d)).
  split; [done |]. clear Hd Ht.
  induction Hbare as [|p paths Hp Hbare IH]; simpl; [constructor |].
  constructor; [| done].
  destruct p; try done. by destruct (Hp l).
Qed.

Lemma fetch_values_bare_keys_witness :
  let d : gmap string Py.value :=
    <["normalized_types" := Py.VDict {["ipv4" := Py.VList [Py.VStr "client"]]}]>
      {["client" := Py.VStr "10.0.0.1"]} in
  fetch_values_by_datatype (Py.VDict d) "ipv4" = Py.Ok [Py.VDict d].
Proof.
  intros d.
  apply (fetch_values_bare_keys d {["ipv4" := Py.VList [Py.VStr "client"]]}
           "ipv4" [Py.VStr "client"]); [reflexivity | reflexivity |].
  constructor; [by intros keys | constructor].
Defined.

Lemma follow_nest (keys : list string) (v : Py.value) :
  follow (nest keys v) (map Py.VStr keys) = Py.Ok v.
Proof.
  induction keys as [|k keys IH]; simpl; [done |].
  by rewrite lookup_singleton_eq.
Qed.

(** X21. What is stored under a path is what the function finds: in a record
    that holds [v] under the keys [k, keys] and lists that path for the
    datatype, the result is [v] alone. *)
Theorem fetch_values_round_trip
  (d : gmap string Py.value) (datatype k : string) (keys : list string)
  (v : Py.value) :
  k ≠ "normalized_types" →
  fetch_values_by_datatype
    (Py.VDict
       (<["normalized_types" :=
            Py.VDict {[datatype :=
              Py.VList [Py.VList (map Py.VStr (k :: keys))]]}]>
          (<[k := nest keys v]> d)))
    datatype
  = Py.Ok [v].
Proof.
  intros Hk. unfold fetch_values_by_datatype. simpl.
  rewrite lookup_insert_eq. simpl.
  rewrite bool_decide_eq_true_2 by (rewrite lookup_singleton_eq; eauto).
  rewrite lookup_singleton_eq. simpl.
  rewrite lookup_insert_ne by done. rewrite lookup_insert_eq.
  by rewrite follow_nest.
Qed.

Lemma fetch_values_round_trip_witness :
  "detail" ≠ "normalized_types"
  ∧ fetch_values_by_datatype
      (Py.VDict
         (<["normalized_types" :=
              Py.VDict {["ipv4" :=
                Py.VList [Py.VList (map Py.VStr ["detail"; "sourceIPAddress"])]]}]>
            (<["detail" := nest ["sourceIPAddress"] (Py.VStr "1.1.1.2")]> ∅)))
      "ipv4"
    = Py.Ok [Py.VStr "1.1.1.2"].
Proof.
  assert ("detail" ≠ "normalized_types") as H by discriminate.
  split; [exact H |].
  exact (fetch_values_round_trip ∅ "ipv4" "detail" ["sourceIPAddress"]
           (Py.VStr "1.1.1.2") H).
Defined.

End HelperFacts.
